(** * codex-plan-reviewer: section extraction and the iterative review loop

    A shallow embedding of [scripts/extract_sections.py] and of the round
    loop of [scripts/iterate_section.py], with the properties of the
    design document stated and settled against that code.

    Python's [str] is a sequence of Unicode code points; it is modelled as
    a list of code points so that [splitlines], [strip], regular
    expression classes and the severity glyphs mean what they mean in
    Python.  The only primitive whose table is not reproduced is
    [str.lower]: the functions that call it take it as a parameter. *)

From Stdlib Require Import String Ascii.
From Stdlib Require Import List Bool NArith ZArith Lia.
Import ListNotations.

(* ================================================================== *)
(** * Python strings *)
(* ================================================================== *)

Module Py.

Definition char := N.
Definition str := list char.

Local Open Scope N_scope.

(** ** Literals

    Rocq string literals hold bytes; [lit] decodes them as UTF-8 so that
    the text of the source can be written down as it is. *)

Fixpoint utf8_decode (bs : list N) : str :=
  match bs with
  | [] => []
  | b :: r =>
      if b <? 0x80 then b :: utf8_decode r
      else if b <? 0xE0 then
        match r with
        | b1 :: r1 =>
            (N.shiftl (N.land b 0x1F) 6 + N.land b1 0x3F) :: utf8_decode r1
        | _ => []
        end
      else if b <? 0xF0 then
        match r with
        | b1 :: b2 :: r2 =>
            (N.shiftl (N.land b 0x0F) 12 + N.shiftl (N.land b1 0x3F) 6
             + N.land b2 0x3F) :: utf8_decode r2
        | _ => []
        end
      else
        match r with
        | b1 :: b2 :: b3 :: r3 =>
            (N.shiftl (N.land b 0x07) 18 + N.shiftl (N.land b1 0x3F) 12
             + N.shiftl (N.land b2 0x3F) 6 + N.land b3 0x3F) :: utf8_decode r3
        | _ => []
        end
  end.

Definition lit (s : String.string) : str :=
  utf8_decode (map N_of_ascii (list_ascii_of_string s)).

Definition LF : char := 10.
Definition CR : char := 13.
Definition SP : char := 32.
Definition HASH : char := 35.
Definition DASH : char := 45.
Definition QUOTE : char := 34.

(** ** Comparison, prefixes, joining *)

Fixpoint str_eqb (a b : str) : bool :=
  match a, b with
  | [], [] => true
  | x :: a', y :: b' => (x =? y) && str_eqb a' b'
  | _, _ => false
  end.

(** [s.startswith(p)] *)
Fixpoint startswith (p s : str) : bool :=
  match p, s with
  | [], _ => true
  | x :: p', y :: s' => (x =? y) && startswith p' s'
  | _ :: _, [] => false
  end.

(** [s.endswith(p)] *)
Definition endswith (p s : str) : bool :=
  startswith (rev p) (rev s).

(** [sep.join(parts)] *)
Fixpoint join (sep : str) (parts : list str) : str :=
  match parts with
  | [] => []
  | [p] => p
  | p :: rest => p ++ sep ++ join sep rest
  end.

(** [needle in hay] *)
Fixpoint contains (needle hay : str) : bool :=
  startswith needle hay ||
  match hay with
  | [] => false
  | _ :: hay' => contains needle hay'
  end.

(** ** Character classes *)

(** [str.isspace] on one code point; also the class [\s] of [re] for
    [str] patterns. *)
Definition isspace (c : char) : bool :=
  ((0x09 <=? c) && (c <=? 0x0D)) || ((0x1C <=? c) && (c <=? 0x20))
  || (c =? 0x85) || (c =? 0xA0) || (c =? 0x1680)
  || ((0x2000 <=? c) && (c <=? 0x200A))
  || (c =? 0x2028) || (c =? 0x2029) || (c =? 0x202F) || (c =? 0x205F)
  || (c =? 0x3000).

(** The line boundaries of [str.splitlines]. *)
Definition is_linebreak (c : char) : bool :=
  ((0x0A <=? c) && (c <=? 0x0D)) || ((0x1C <=? c) && (c <=? 0x1E))
  || (c =? 0x85) || (c =? 0x2028) || (c =? 0x2029).

(** The class [[a-z0-9]]. *)
Definition is_az09 (c : char) : bool :=
  ((0x61 <=? c) && (c <=? 0x7A)) || ((0x30 <=? c) && (c <=? 0x39)).

(** ** Stripping *)

Fixpoint lstrip_by (f : char -> bool) (s : str) : str :=
  match s with
  | [] => []
  | c :: r => if f c then lstrip_by f r else s
  end.

Fixpoint rstrip_by (f : char -> bool) (s : str) : str :=
  match s with
  | [] => []
  | c :: r =>
      match rstrip_by f r with
      | [] => if f c then [] else [c]
      | r' => c :: r'
      end
  end.

Definition strip_by (f : char -> bool) (s : str) : str :=
  rstrip_by f (lstrip_by f s).

(** [s.strip()] *)
Definition strip (s : str) : str := strip_by isspace s.

(** [s.strip(chars)] *)
Definition strip_chars (chars s : str) : str :=
  strip_by (fun c => existsb (N.eqb c) chars) s.

(** ** [str.splitlines]

    A line ends at a line boundary, the pair CR LF counts as one, and a
    last line without a boundary is kept only when it is not empty. *)

Fixpoint splitlines_from (cur : str) (s : str) : list str :=
  match s with
  | [] => match cur with [] => [] | _ => [rev cur] end
  | c :: r =>
      if c =? CR then
        match r with
        | c' :: r' =>
            if c' =? LF then rev cur :: splitlines_from [] r'
            else rev cur :: splitlines_from [] r
        | [] => rev cur :: splitlines_from [] r
        end
      else if is_linebreak c then rev cur :: splitlines_from [] r
      else splitlines_from (c :: cur) r
  end.

Definition splitlines (s : str) : list str := splitlines_from [] s.

(** ** Case-insensitive literals of [re]

    With [re.IGNORECASE] an ASCII letter of a pattern matches its two
    ASCII cases and, for [i], [s] and [k], the four further code points
    U+0130, U+0131, U+017F and U+212A. *)

Definition ascii_lower_char (c : char) : char :=
  if (0x41 <=? c) && (c <=? 0x5A) then c + 32 else c.

Definition ascii_lower (s : str) : str := map ascii_lower_char s.

Definition re_ichar (p c : char) : bool :=
  (ascii_lower_char c =? ascii_lower_char p)
  || ((ascii_lower_char p =? 0x69) && ((c =? 0x130) || (c =? 0x131)))
  || ((ascii_lower_char p =? 0x73) && (c =? 0x17F))
  || ((ascii_lower_char p =? 0x6B) && (c =? 0x212A)).

(** Matches the literal [p] case-insensitively at the start of [s] and
    returns what follows it. *)
Fixpoint re_iliteral (p s : str) : option str :=
  match p, s with
  | [], _ => Some s
  | x :: p', y :: s' => if re_ichar x y then re_iliteral p' s' else None
  | _ :: _, [] => None
  end.

(** ** Decimal formatting *)

Fixpoint digits_of_uint (d : Decimal.uint) : str :=
  match d with
  | Decimal.Nil => []
  | Decimal.D0 d => 0x30 :: digits_of_uint d
  | Decimal.D1 d => 0x31 :: digits_of_uint d
  | Decimal.D2 d => 0x32 :: digits_of_uint d
  | Decimal.D3 d => 0x33 :: digits_of_uint d
  | Decimal.D4 d => 0x34 :: digits_of_uint d
  | Decimal.D5 d => 0x35 :: digits_of_uint d
  | Decimal.D6 d => 0x36 :: digits_of_uint d
  | Decimal.D7 d => 0x37 :: digits_of_uint d
  | Decimal.D8 d => 0x38 :: digits_of_uint d
  | Decimal.D9 d => 0x39 :: digits_of_uint d
  end.

(** [str(n)] for [n >= 0] *)
Definition str_of_N (n : N) : str := digits_of_uint (N.to_uint n).

(** [f"{z}"] *)
Definition str_of_Z (z : Z) : str :=
  match z with
  | Zneg p => DASH :: str_of_N (Npos p)
  | _ => str_of_N (Z.to_N z)
  end.

(** [f"{z:02d}"]: zeros are put between the sign and the digits until
    the whole is two characters wide. *)
Definition format_02d (z : Z) : str :=
  match z with
  | Zneg p => DASH :: repeat 0x30 (1 - length (str_of_N (Npos p)))%nat
                   ++ str_of_N (Npos p)
  | _ => repeat 0x30 (2 - length (str_of_N (Z.to_N z)))%nat
         ++ str_of_N (Z.to_N z)
  end.

End Py.

Import Py.

(* ================================================================== *)
(** * scripts/extract_sections.py *)
(* ================================================================== *)

Module ExtractSections.

Local Open Scope N_scope.

(** A section is the dictionary [{"name": ..., "content": ...}]. *)
Record section := mk_section { name : str; content : str }.

Definition toc_aliases : list str :=
  [lit "table of contents"; lit "toc"; lit "contents"].

(** [re.match(r"^##\s+(table of contents|toc|contents)\s*$", line,
    re.IGNORECASE)].  No alias starts with white space, so the greedy
    [\s+] ends at the first character that is not white space. *)
Definition is_toc_heading (line : str) : bool :=
  match line with
  | h1 :: h2 :: c :: rest =>
      (h1 =? HASH) && (h2 =? HASH) && isspace c
      && existsb (fun alias =>
                    match re_iliteral alias (lstrip_by isspace rest) with
                    | Some tail => forallb isspace tail
                    | None => false
                    end) toc_aliases
  | _ => false
  end.

(** [re.match(r"(table of contents|toc|contents)$", name,
    re.IGNORECASE)]: [$] matches at the end and before a last LF. *)
Definition is_toc_name (nm : str) : bool :=
  existsb (fun alias =>
             match re_iliteral alias nm with
             | Some tail => str_eqb tail [] || str_eqb tail [LF]
             | None => false
             end) toc_aliases.

(** The first loop of [extract_sections]: the first H1 line. *)
Definition extract_title (lines : list str) : str :=
  match find (fun line => startswith (lit "# ") line
                          && negb (startswith (lit "## ") line)) lines with
  | Some line => line
  | None => lit "# Untitled Document"
  end.

(** The second loop of [extract_sections]: the value of [toc_lines],
    with [in_toc] as the loop carries it. *)
Fixpoint extract_toc (in_toc : bool) (lines : list str) : list str :=
  match lines with
  | [] => []
  | line :: rest =>
      if is_toc_heading line then extract_toc true rest
      else if in_toc then
        if startswith (lit "## ") line then []
        else line :: extract_toc true rest
      else extract_toc false rest
  end.

Definition banner : str :=
  lit "---
" ++ lit "*The following is one section from the above document, extracted for focused review.*
" ++ lit "---

".

(** The context header built from the title and the TOC lines. *)
Definition build_context (title : str) (toc_lines : list str) : str :=
  (title ++ [LF; LF])
  ++ match toc_lines with
     | [] => []
     | _ => lit "## Document Structure
" ++ join [LF] toc_lines ++ [LF; LF]
     end
  ++ banner.

(** ["#" * level + " "] *)
Definition heading_prefix (level : Z) : str :=
  repeat HASH (Z.to_nat level) ++ [SP].

(** The section appended when [current_name is not None]. *)
Definition flush (sections : list section) (current_name : option str)
    (current_lines : list str) : list section :=
  match current_name with
  | Some nm => sections ++ [mk_section nm (join [LF] current_lines)]
  | None => sections
  end.

(** The loop of [_split_on_heading] over the remaining lines, with the
    three variables it updates, followed by the last flush. *)
Fixpoint split_loop (level : Z) (title : str) (lines : list str)
    (sections : list section) (current_name : option str)
    (current_lines : list str) : list section :=
  match lines with
  | [] => flush sections current_name current_lines
  | line :: rest =>
      if startswith (heading_prefix level) line then
        if (level =? 1)%Z && str_eqb line title then
          split_loop level title rest sections current_name current_lines
        else
          split_loop level title rest
            (flush sections current_name current_lines)
            (Some (strip (skipn (length (heading_prefix level)) line)))
            [line]
      else
        match current_name with
        | Some _ =>
            split_loop level title rest sections current_name
              (current_lines ++ [line])
        | None =>
            split_loop level title rest sections current_name current_lines
        end
  end.

Definition _split_on_heading (lines : list str) (level : Z) (title : str)
  : list section :=
  split_loop level title lines [] None [].

(** The value of [sections] after the fallbacks, before the TOC filter. *)
Definition split_cascade (text : str) : list section :=
  let lines := splitlines text in
  let title := extract_title lines in
  match _split_on_heading lines 2 title with
  | (_ :: _) as sections => sections
  | [] =>
      match _split_on_heading lines 3 title with
      | (_ :: _) as sections => sections
      | [] =>
          match _split_on_heading lines 1 title with
          | (_ :: _) as sections => sections
          | [] => [mk_section (lit "full-document") text]
          end
      end
  end.

Definition document_context (text : str) : str :=
  let lines := splitlines text in
  build_context (extract_title lines) (extract_toc false lines).

(** [extract_sections], from the text read from [plan_path]. *)
Definition extract_sections (text : str) : list section :=
  let context := document_context text in
  let sections := split_cascade text in
  let sections := filter (fun s => negb (is_toc_name (name s))) sections in
  map (fun s => mk_section (name s) (context ++ content s)) sections.

(** [re.sub(r"[^a-z0-9]+", "-", s)]: [in_run] tells that the previous
    character was outside the class and is replaced already. *)
Fixpoint sub_non_alnum (in_run : bool) (s : str) : str :=
  match s with
  | [] => []
  | c :: r =>
      if is_az09 c then c :: sub_non_alnum false r
      else if in_run then sub_non_alnum true r
      else DASH :: sub_non_alnum true r
  end.

Section WithLower.

(** [str.lower], whose Unicode tables are not part of the repository. *)
Variable lower : str -> str.

Definition sanitize_filename (nm : str) : str :=
  let safe := sub_non_alnum false (lower nm) in
  strip_chars (lit "-") safe.

(** [f"{i:02d}-{safe_name}.md"] *)
Definition section_filename (i : Z) (s : section) : str :=
  format_02d i ++ lit "-" ++ sanitize_filename (name s) ++ lit ".md".

(** The loop of [main] over [enumerate(sections, 1)]: the files written
    under the sections directory, in order, as (file name, text). *)
Fixpoint write_sections (i : Z) (sections : list section)
  : list (str * str) :=
  match sections with
  | [] => []
  | s :: rest =>
      (section_filename i s, content s) :: write_sections (i + 1) rest
  end.

(** [main]: [plan] is the text of the plan file, [None] when the path is
    not a file; the result is the exit status and the files written into
    the emptied sections directory. *)
Definition main (plan : option str) : Z * list (str * str) :=
  match plan with
  | None => (1%Z, [])
  | Some text => (0%Z, write_sections 1 (extract_sections text))
  end.

End WithLower.

End ExtractSections.

(* ================================================================== *)
(** * scripts/iterate_section.py *)
(* ================================================================== *)

Module IterateSection.

Local Open Scope N_scope.

(** ** The outside world *)

(** The files of the iteration directory: names with their text. *)
Definition files := list (str * str).

Fixpoint write_text (path text : str) (fs : files) : files :=
  match fs with
  | [] => [(path, text)]
  | (p, t) :: rest =>
      if str_eqb p path then (path, text) :: rest
      else (p, t) :: write_text path text rest
  end.

Fixpoint read_text (path : str) (fs : files) : option str :=
  match fs with
  | [] => None
  | (p, t) :: rest => if str_eqb p path then Some t else read_text path rest
  end.

(** What [subprocess.run] does with the codex command. *)
Inductive process := Completed (stdout : str) | TimeoutExpired | FileNotFound.

(** What a call of [run_codex] does: it returns the stripped output,
    raises [TimeoutError], or ends the program with status 1. *)
Inductive codex_outcome := Output (text : str) | Timeout | Missing.

(** The command line arguments after parsing. *)
Record args := {
  section_basename : str;      (* section_path.stem *)
  review_type : str;
  max_rounds : Z;
  no_interactive : bool;
  single_round : option Z
}.

(** Everything the program reads from outside.  Answers that may change
    while the program runs take the logical time of the question. *)
Record env := {
  section_file : option str;   (* text of the section file, if a file *)
  prompt_file : option str;    (* text of prompts/<review_type>.md *)
  iteration_dir : files;       (* what an earlier run left behind *)
  codex_bin : str;             (* find_codex() *)
  model : option str;          (* CODEX_REVIEW_MODEL *)
  subprocess_run : nat -> list str -> str -> process;
  stdin_line : nat -> option str;      (* input(); None at end of input *)
  revised_file : nat -> option str;    (* text of the revised file *)
  utcnow : nat -> str                  (* datetime.now(utc).isoformat() *)
}.

Record world := { fs : files; clock : nat }.

Definition tick (w : world) : world :=
  {| fs := fs w; clock := S (clock w) |}.

(** The effects of a run that can be seen from outside, in order. *)
Inductive event :=
| EInput (line : option str)
| EInvoke (round : Z) (resume : bool) (prompt : str) (out : codex_outcome)
| EPersist (round : Z) (timestamp output : str)
| ESummary (approved : bool) (text : str).

(** ** A monad for effects, events and [sys.exit] *)

Inductive result (A : Type) := Val (a : A) | SysExit (code : Z).
Arguments Val {A} a.
Arguments SysExit {A} code.

Definition M (A : Type) := world -> list event * world * result A.

Definition ret {A} (a : A) : M A := fun w => ([], w, Val a).

Definition bind {A B} (m : M A) (f : A -> M B) : M B :=
  fun w =>
    match m w with
    | (t1, w1, Val a) =>
        match f a w1 with
        | (t2, w2, r) => (t1 ++ t2, w2, r)
        end
    | (t1, w1, SysExit code) => (t1, w1, SysExit code)
    end.

Definition sys_exit {A} (code : Z) : M A := fun w => ([], w, SysExit code).

Declare Scope monad_scope.
Delimit Scope monad_scope with monad.
Notation "x <- m ;; k" := (bind m (fun x => k))
  (at level 61, m at next level, right associativity) : monad_scope.
Notation "m ;; k" := (bind m (fun _ => k))
  (at level 61, right associativity) : monad_scope.
Local Open Scope monad_scope.

(** ** Pure parts *)

(** [len(re.findall(r"🔴|🟡", text))] *)
Definition count_issues (text : str) : nat :=
  length (filter (fun c => (c =? 0x1F534) || (c =? 0x1F7E1)) text).

Definition APPROVED : str := lit "SECTION APPROVED".

Definition approved (text : str) : bool := contains APPROVED text.

(** [f"round-{round_num:02d}.md"] *)
Definition round_file (round_num : Z) : str :=
  lit "round-" ++ format_02d round_num ++ lit ".md".

Definition full_prompt (review_prompt section_content : str) : str :=
  review_prompt ++ lit "

---

## Document Section to Review

" ++ section_content ++ lit "

---

After your review, I will revise the section and show you the updated version. You will then evaluate whether your concerns were addressed. We may go through multiple rounds of this.".

Definition resume_prompt (revised_content : str) : str :=
  lit "Here is the revised version of the section, updated based on your previous feedback.

Please evaluate:
1. Which of your previous findings have been addressed? Mark each as RESOLVED or UNRESOLVED.
2. Did the revisions introduce any NEW issues?
3. Are there any remaining critical or warning items?

Use the same severity format (🔴 🟡 🔵) for any remaining or new issues.

If all critical and warning issues are resolved, state: "
  ++ [QUOTE]
  ++ lit "✅ SECTION APPROVED — no critical or warning issues remain."
  ++ [QUOTE]
  ++ lit "

---

## Revised Section

" ++ revised_content.

Definition round1_text (a : args) (now result : str) : str :=
  lit "# Iteration Round 1: Initial Review
" ++ lit "**Section**: " ++ section_basename a ++ [LF]
  ++ lit "**Review type**: " ++ review_type a ++ [LF]
  ++ lit "**Date**: " ++ now ++ [LF; LF]
  ++ result ++ [LF].

Definition round_text (round_num : Z) (now result : str) : str :=
  lit "# Iteration Round " ++ str_of_Z round_num ++ [LF]
  ++ lit "**Date**: " ++ now ++ [LF; LF]
  ++ result ++ [LF].

(** Order of [str]: by code points, a proper prefix first. *)
Fixpoint str_leb (a b : str) : bool :=
  match a, b with
  | [], _ => true
  | _ :: _, [] => false
  | x :: a', y :: b' => (x <? y) || ((x =? y) && str_leb a' b')
  end.

Fixpoint insert_sorted (f : str * str) (l : files) : files :=
  match l with
  | [] => [f]
  | g :: rest =>
      if str_leb (fst f) (fst g) then f :: l else g :: insert_sorted f rest
  end.

(** [sorted(iteration_dir.glob("round-*.md"))] *)
Definition round_files (dir : files) : files :=
  fold_right insert_sorted []
    (filter (fun f => startswith (lit "round-") (fst f)
                      && endswith (lit ".md") (fst f)
                      && (9 <=? length (fst f))%nat) dir).

Definition summary_text (a : args) (last_result : str) (dir : files) : str :=
  join [LF]
    ([ lit "# Iteration Summary: " ++ section_basename a ++ [LF];
       lit "- **Review type**: " ++ review_type a;
       lit "- **Approved**: "
         ++ (if approved last_result then lit "yes" else lit "no");
       [];
       lit "## Round History" ]
     ++ map (fun f => lit "- " ++ fst f ++ lit ": "
                      ++ str_of_N (N.of_nat (count_issues (snd f)))
                      ++ lit " issues")
            (round_files dir))
  ++ [LF].

Section Run.

Variable lower : str -> str.
Variable e : env.
Variable a : args.

(** ** Effects *)

(** The command of [run_codex] and the outcome of the call.  The source
    repeats the last arguments of [subprocess.run] and the [return] once
    more after the [return]; the call is taken as written the first
    time. *)
Definition codex_cmd (resume : bool) : list str :=
  (match codex_bin e with
   | [] => [lit "codex"; lit "exec"]
   | bin => [bin; lit "exec"]
   end)
  ++ (if resume then [lit "resume"; lit "--last"] else [lit "--ephemeral"])
  ++ (match model e with
      | Some ((_ :: _) as m) => [lit "-m"; m]
      | _ => []
      end)
  ++ [lit "-"].

Definition codex_call (now : nat) (prompt : str) (resume : bool)
  : codex_outcome :=
  match subprocess_run e now (codex_cmd resume) prompt with
  | Completed stdout => Output (strip stdout)
  | TimeoutExpired => Timeout
  | FileNotFound => Missing
  end.

(** [run_codex]: [None] stands for the raised [TimeoutError]. *)
Definition run_codex (round_num : Z) (prompt : str) (resume : bool)
  : M (option str) :=
  fun w =>
    let out := codex_call (clock w) prompt resume in
    ([EInvoke round_num resume prompt out], tick w,
     match out with
     | Output text => Val (Some text)
     | Timeout => Val None
     | Missing => SysExit 1
     end).

(** [input()]: [None] stands for [EOFError]. *)
Definition input : M (option str) :=
  fun w => let line := stdin_line e (clock w) in
           ([EInput line], tick w, Val line).

(** [revised_path.is_file()] and [revised_path.read_text()] *)
Definition read_revised : M (option str) :=
  fun w => ([], tick w, Val (revised_file e (clock w))).

Definition now_iso : M str :=
  fun w => ([], tick w, Val (utcnow e (clock w))).

(** [round_file.write_text(text)] *)
Definition persist (round_num : Z) (now result text : str) : M unit :=
  fun w => ([EPersist round_num now result],
            {| fs := write_text (round_file round_num) text (fs w);
               clock := clock w |}, Val tt).

(** [shutil.rmtree(iteration_dir)] and [mkdir] *)
Definition clean_iteration_dir : M unit :=
  fun w => ([], {| fs := []; clock := clock w |}, Val tt).

(** ** The loop *)

(** How an iteration ends, with the variables the loop carries. *)
Inductive step :=
| Continue (prev_issues : nat) (last_result : str)
| Break (prev_issues : nat) (last_result : str).

Definition interactive : bool := negb (no_interactive a).

(** The branch [round_num == 1]. *)
Definition first_round (review_prompt section_content : str) : M step :=
  r <- run_codex 1 (full_prompt review_prompt section_content) false ;;
  match r with
  | None => sys_exit 1
  | Some result =>
      now <- now_iso ;;
      persist 1 now result (round1_text a now result) ;;
      ret (Continue (count_issues result) result)
  end.

(** The part of the [else] branch after the interactive wait. *)
Definition review_revision (round_num : Z) (prev_issues : nat) : M step :=
  revised <- read_revised ;;
  match revised with
  | None => sys_exit 1
  | Some revised_content =>
      let prompt := resume_prompt revised_content in
      r <- run_codex round_num prompt true ;;
      let result := match r with Some text => text | None => [] end in
      result <-
        match result with
        | [] =>
            r' <- run_codex round_num prompt false ;;
            match r' with
            | Some text => ret text
            | None => sys_exit 1
            end
        | _ => ret result
        end ;;
      now <- now_iso ;;
      persist round_num now result (round_text round_num now result) ;;
      let current_issues := count_issues result in
      if approved result then ret (Break prev_issues result)
      else ret (Continue current_issues result)
  end.

(** [user_input.strip().lower() in ("q", "quit")] *)
Definition is_quit (user_input : str) : bool :=
  let s := lower (strip user_input) in
  str_eqb s (lit "q") || str_eqb s (lit "quit").

(** The branch of rounds other than round 1. *)
Definition later_round (round_num : Z) (prev_issues : nat)
    (last_result : str) : M step :=
  if interactive then
    line <- input ;;
    let user_input := match line with Some s => s | None => lit "q" end in
    if is_quit user_input then ret (Break prev_issues last_result)
    else review_revision round_num prev_issues
  else review_revision round_num prev_issues.

(** One iteration of [for round_num in rounds_to_run]. *)
Definition round_body (review_prompt section_content : str)
    (round_num : Z) (prev_issues : nat) (last_result : str) : M step :=
  if (round_num =? 1)%Z then first_round review_prompt section_content
  else later_round round_num prev_issues last_result.

Fixpoint loop (review_prompt section_content : str) (rounds : list Z)
    (prev_issues : nat) (last_result : str) : M (nat * str) :=
  match rounds with
  | [] => ret (prev_issues, last_result)
  | round_num :: rest =>
      s <- round_body review_prompt section_content round_num
             prev_issues last_result ;;
      match s with
      | Continue p l => loop review_prompt section_content rest p l
      | Break p l => ret (p, l)
      end
  end.

Definition rounds_to_run : list Z :=
  match single_round a with
  | Some n => [n]
  | None => map Z.of_nat (seq 1 (Z.to_nat (max_rounds a)))
  end.

Definition write_summary (last_result : str) : M unit :=
  fun w =>
    let text := summary_text a last_result (fs w) in
    ([ESummary (approved last_result) text],
     {| fs := write_text (lit "summary.md") text (fs w); clock := clock w |},
     Val tt).

Definition main : M unit :=
  match section_file e with
  | None => sys_exit 1
  | Some section_content =>
      match prompt_file e with
      | None => sys_exit 1
      | Some review_prompt =>
          (match single_round a with
           | None => clean_iteration_dir
           | Some n => if (n =? 1)%Z then clean_iteration_dir else ret tt
           end) ;;
          pl <- loop review_prompt section_content rounds_to_run 0%nat [] ;;
          write_summary (snd pl)
      end
  end.

(** A run from the directory an earlier run left behind. *)
Definition run : list event * world * result unit :=
  main {| fs := iteration_dir e; clock := 0 |}.

Definition trace : list event := fst (fst run).
Definition final_files : files := fs (snd (fst run)).
Definition status : result unit := snd run.

End Run.

End IterateSection.

(* ================================================================== *)
(** * scripts/review_section.py and scripts/review_holistic.py *)
(* ================================================================== *)

(** [find_codex] and [run_codex], which the two scripts have in the same
    words. *)
Module OneShot.

Import IterateSection.

Record host := {
  which : str -> option str;     (* shutil.which *)
  win32 : bool;                  (* sys.platform == "win32" *)
  model : option str;            (* CODEX_REVIEW_MODEL *)
  timeout : Z;                   (* int(CODEX_REVIEW_TIMEOUT) *)
  subprocess_run : list str -> str -> process;
  utcnow : str                   (* datetime.now(utc).isoformat() *)
}.

(** [if codex_path:] for the result of [shutil.which]. *)
Definition found (r : option str) : option str :=
  match r with
  | Some ((_ :: _) as path) => Some path
  | _ => None
  end.

Definition find_codex (h : host) : str :=
  match found (which h (lit "codex")) with
  | Some path => path
  | None =>
      if win32 h then
        match found (which h (lit "codex.cmd")) with
        | Some path => path
        | None => []
        end
      else []
  end.

Definition codex_cmd (h : host) : list str :=
  (match find_codex h with
   | [] => [lit "codex"; lit "exec"; lit "--ephemeral"]
   | bin => [bin; lit "exec"; lit "--ephemeral"]
   end)
  ++ (match model h with
      | Some ((_ :: _) as m) => [lit "-m"; m]
      | _ => []
      end)
  ++ [lit "-"].

(** [run_codex]: the stripped output, [TimeoutError], or the end of the
    program with status 1. *)
Definition run_codex (h : host) (prompt : str) : codex_outcome :=
  match subprocess_run h (codex_cmd h) prompt with
  | Completed stdout => Output (strip stdout)
  | TimeoutExpired => Timeout
  | FileNotFound => Missing
  end.

(** What a run of one of the two scripts leaves: its exit status, the
    prompt it sent, if it came to that, and the feedback file it wrote,
    if any, as (file name, text). *)
Record outcome := {
  status : Z;
  sent : option str;
  written : option (str * str)
}.

Definition failed : outcome :=
  {| status := 1; sent := None; written := None |}.

End OneShot.

Module ReviewSection.

Import IterateSection OneShot.

(** What [main] reads from the file system. *)
Record disk := {
  section_file : option str;     (* text of the section file, if a file *)
  section_stem : str;            (* section_path.stem *)
  prompt_file : str -> option str  (* text of prompts/<review_type>.md *)
}.

Definition full_prompt (review_prompt section_content : str) : str :=
  review_prompt ++ lit "

---

## Document Section to Review

" ++ section_content.

Definition timeout_notice (basename : str) (seconds : Z) : str :=
  lit "# Review: " ++ basename ++ [LF; LF]
  ++ lit "**⚠️ TIMEOUT** — Codex did not complete within "
  ++ str_of_Z seconds ++ lit "s. "
  ++ lit "Consider increasing CODEX_REVIEW_TIMEOUT or splitting this section further.
".

Definition feedback_text (basename review_type now result : str) : str :=
  lit "# Section Review: " ++ basename ++ [LF]
  ++ lit "**Review type**: " ++ review_type ++ [LF]
  ++ lit "**Date**: " ++ now ++ [LF]
  ++ [LF]
  ++ result ++ [LF].

(** [f"{section_basename}-review.md"] *)
Definition feedback_name (basename : str) : str :=
  basename ++ lit "-review.md".

(** [main], from [sys.argv]. *)
Definition main (h : host) (d : disk) (argv : list str) : outcome :=
  match argv with
  | _ :: _ :: rest =>
      let review_type :=
        match rest with
        | t :: _ => t
        | [] => lit "architecture"
        end in
      match section_file d with
      | None => failed
      | Some section_content =>
          match prompt_file d review_type with
          | None => failed
          | Some review_prompt =>
              let basename := section_stem d in
              let prompt := full_prompt review_prompt section_content in
              match run_codex h prompt with
              | Timeout =>
                  {| status := 1; sent := Some prompt;
                     written := Some (feedback_name basename,
                                      timeout_notice basename (timeout h)) |}
              | Missing =>
                  {| status := 1; sent := Some prompt; written := None |}
              | Output result =>
                  {| status := 0; sent := Some prompt;
                     written := Some (feedback_name basename,
                                      feedback_text basename review_type
                                        (utcnow h) result) |}
              end
          end
      end
  | _ => failed
  end.

End ReviewSection.

Module ReviewHolistic.

Import IterateSection OneShot.

(** What [main] reads from the file system. *)
Record disk := {
  plan_file : option str;        (* text of the plan file, if a file *)
  plan_name : str;               (* plan_path.name *)
  holistic_prompt : option str;  (* text of prompts/holistic.md *)
  pass1_files : option files     (* the files of argv[2], if a directory *)
}.

(** [sorted(pass1_dir.glob("*-review.md"))] *)
Definition review_files (dir : files) : files :=
  fold_right insert_sorted []
    (filter (fun f => endswith (lit "-review.md") (fst f)) dir).

Definition pass1_header : str :=
  lit "## Previous Review Findings (Pass 1)

" ++ lit "The following issues were identified in a section-by-section review. "
  ++ lit "Verify whether these have been addressed in the current version of the document. "
  ++ lit "Flag any that remain unresolved.

".

(** The loop that appends the text of each review file. *)
Fixpoint append_reviews (summary : str) (reviews : files) : str :=
  match reviews with
  | [] => summary
  | f :: rest => append_reviews (summary ++ snd f ++ lit "

---

") rest
  end.

(** The value of [pass1_summary]; [pass1] is the listing of the
    directory when one was given and is a directory. *)
Definition pass1_summary (pass1 : option files) : str :=
  match pass1 with
  | Some dir => append_reviews pass1_header (review_files dir)
  | None => []
  end.

Definition full_prompt (holistic pass1_text plan_content : str) : str :=
  holistic ++ lit "

" ++ pass1_text ++ lit "

---

## Full Document to Review

" ++ plan_content.

Definition timeout_notice (seconds : Z) : str :=
  lit "# Holistic Review

" ++ lit "**⚠️ TIMEOUT** — Codex did not complete within "
  ++ str_of_Z seconds ++ lit "s. "
  ++ lit "The document may be too large for a single holistic pass. "
  ++ lit "Consider increasing CODEX_REVIEW_TIMEOUT.
".

Definition feedback_text (now name has_pass1 result : str) : str :=
  lit "# Holistic Review" ++ [LF]
  ++ lit "**Date**: " ++ now ++ [LF]
  ++ lit "**Document**: " ++ name ++ [LF]
  ++ lit "**Pass 1 feedback included**: " ++ has_pass1 ++ [LF]
  ++ [LF]
  ++ result ++ [LF].

(** [main], from [sys.argv].  A missing prompts/holistic.md makes
    [read_text] raise, which ends the program with status 1. *)
Definition main (h : host) (d : disk) (argv : list str) : outcome :=
  match argv with
  | _ :: _ :: rest =>
      let pass1 :=
        match rest with
        | _ :: _ => pass1_files d
        | [] => None
        end in
      match plan_file d with
      | None => failed
      | Some plan_content =>
          match holistic_prompt d with
          | None => failed
          | Some holistic =>
              let prompt :=
                full_prompt holistic (pass1_summary pass1) plan_content in
              match run_codex h prompt with
              | Timeout =>
                  {| status := 1; sent := Some prompt;
                     written := Some (lit "holistic-review.md",
                                      timeout_notice (timeout h)) |}
              | Missing =>
                  {| status := 1; sent := Some prompt; written := None |}
              | Output result =>
                  let has_pass1 :=
                    match pass1 with
                    | Some _ => lit "yes"
                    | None => lit "no"
                    end in
                  {| status := 0; sent := Some prompt;
                     written := Some (lit "holistic-review.md",
                                      feedback_text (utcnow h) (plan_name d)
                                        has_pass1 result) |}
              end
          end
      end
  | _ => failed
  end.

End ReviewHolistic.

Import ExtractSections.
Import IterateSection.

(* ================================================================== *)
(** * Texts used below *)
(* ================================================================== *)

(** The scenario of the design document. *)
Definition scenario_text : str := lit "# Title
## A
body-a
## B
body-b
".

(** A plan whose only second-level heading is the table of contents. *)
Definition toc_only_text : str := lit "# Plan
## Table of Contents
- Task 1
### Task 1
Do it.
".

Definition toc_and_b_text : str := lit "## TOC
- B
## B
b
".

(** One hundred second-level sections. *)
Definition hundred_sections_text : str :=
  concat (repeat (lit "## s
") 100).

(** Two headings without any letter or digit. *)
Definition punctuation_text : str := lit "## ?!… (§)
a
## ***
b
".

(* ================================================================== *)
(** * Vocabulary of the segmenter's properties *)
(* ================================================================== *)

(** A line at which [_split_on_heading] opens a section. *)
Definition is_split_point (level : Z) (title line : str) : bool :=
  startswith (heading_prefix level) line
  && negb ((level =? 1)%Z && str_eqb line title).

Definition is_nil {A} (l : list A) : bool :=
  match l with [] => true | _ => false end.

Definition is_none {A} (o : option A) : bool :=
  match o with None => true | _ => false end.

(** What [_split_on_heading] guarantees of each section: it starts at a
    split point of the document, which gives it its name. *)
Definition opened_at (level : Z) (title : str) (doc : list str)
    (s : section) : Prop :=
  exists line body,
    In line doc
    /\ is_split_point level title line = true
    /\ name s = strip (skipn (length (heading_prefix level)) line)
    /\ content s = join [LF] (line :: body).

(** The same of the section that is still open in the loop. *)
Definition open_at (level : Z) (title : str) (doc : list str)
    (cn : option str) (cl : list str) : Prop :=
  forall nm, cn = Some nm ->
    exists line body,
      cl = line :: body
      /\ In line doc
      /\ is_split_point level title line = true
      /\ nm = strip (skipn (length (heading_prefix level)) line).

(** The maximal runs of characters of [[a-z0-9]] in [s], in order;
    [cur] is the run being read. *)
Fixpoint alnum_runs_from (cur : str) (s : str) : list str :=
  match s with
  | [] => match cur with [] => [] | _ => [cur] end
  | c :: r =>
      if is_az09 c then alnum_runs_from (cur ++ [c]) r
      else match cur with
           | [] => alnum_runs_from [] r
           | _ => cur :: alnum_runs_from [] r
           end
  end.

Definition alnum_runs (s : str) : list str := alnum_runs_from [] s.

Definition is_dash (c : char) : bool := existsb (N.eqb c) (lit "-").

(* ================================================================== *)
(** * Runs used below *)
(* ================================================================== *)

(** Whether a codex command resumes the last session. *)
Definition is_resume (cmd : list str) : bool :=
  existsb (str_eqb (lit "resume")) cmd.

(** A world with a section, a prompt, a revision that is always there,
    no earlier round files, and the given codex process. *)
Definition env_with (proc : nat -> list str -> str -> process) : env :=
  {| section_file := Some (lit "## A
body");
     prompt_file := Some (lit "Review the architecture.");
     iteration_dir := [];
     codex_bin := lit "/usr/local/bin/codex";
     model := None;
     subprocess_run := proc;
     stdin_line := fun _ => None;
     revised_file := fun _ => Some (lit "## A
revised body");
     utcnow := fun _ => lit "2026-01-01T00:00:00+00:00" |}.

(** A full run of at most [n] rounds, without pauses. *)
Definition full_run (n : Z) : args :=
  {| section_basename := lit "01-a";
     review_type := lit "architecture";
     max_rounds := n;
     no_interactive := true;
     single_round := None |}.

(** The run of round [n] alone, interactive as it is by default. *)
Definition only_round (n : Z) : args :=
  {| section_basename := lit "01-a";
     review_type := lit "architecture";
     max_rounds := 3;
     no_interactive := false;
     single_round := Some n |}.

Definition approval_text : str :=
  lit "✅ SECTION APPROVED — no critical or warning issues remain.".

(** A reviewer that approves at once and finds fault when resumed. *)
Definition approves_first : env :=
  env_with (fun _ cmd _ =>
    if is_resume cmd then Completed (lit "🔴 One finding is open.
")
    else Completed approval_text).

(** A reviewer that finds fault at first and approves the revision. *)
Definition approves_revision : env :=
  env_with (fun _ cmd _ =>
    if is_resume cmd then Completed approval_text
    else Completed (lit "🔴 One finding is open.
")).

(** A reviewer that answers the first call and times out ever after. *)
Definition times_out_later : env :=
  env_with (fun now _ _ =>
    match now with
    | O => Completed (lit "🔴 One finding is open.
")
    | S _ => TimeoutExpired
    end).

(** A reviewer that answers nothing when resumed and a warning when
    called afresh. *)
Definition empty_on_resume : env :=
  env_with (fun _ cmd _ =>
    if is_resume cmd then Completed (lit "
") else Completed (lit "🟡 One warning.
")).

(** The rounds persisted in a trace, the calls of the reviewer, and the
    approval flags of the summaries. *)
Definition rounds_persisted (t : list event) : list (Z * str) :=
  flat_map (fun ev => match ev with
                      | EPersist n _ out => [(n, out)]
                      | _ => []
                      end) t.

Definition invocations (t : list event) : list (Z * bool * codex_outcome) :=
  flat_map (fun ev => match ev with
                      | EInvoke n resume _ out => [(n, resume, out)]
                      | _ => []
                      end) t.

Definition summaries (t : list event) : list bool :=
  flat_map (fun ev => match ev with
                      | ESummary b _ => [b]
                      | _ => []
                      end) t.


(* ================================================================== *)
(** * The runs of a round, as a relation *)
(* ================================================================== *)

(** How a round ends once its output is known. *)
Definition ending (prev_issues : nat) (output : str) : step :=
  if approved output then Break prev_issues output
  else Continue (count_issues output) output.

Section RoundRelation.

Variable e : env.
Variable a : args.

(** The runs of [review_revision]: their events and how they end. *)
Inductive review_runs (n : Z) (prev : nat) : list event -> result step -> Prop :=
| Review_no_revision :
    review_runs n prev [] (SysExit 1)
| Review_resume_missing p t :
    codex_call e t p true = Missing ->
    review_runs n prev [EInvoke n true p Missing] (SysExit 1)
| Review_resume_output p t out ts :
    codex_call e t p true = Output out -> out <> [] ->
    review_runs n prev
      [EInvoke n true p (Output out); EPersist n ts out]
      (Val (ending prev out))
| Review_fallback_output p t t' o out ts :
    codex_call e t p true = o -> o = Output [] \/ o = Timeout ->
    codex_call e t' p false = Output out ->
    review_runs n prev
      [EInvoke n true p o; EInvoke n false p (Output out); EPersist n ts out]
      (Val (ending prev out))
| Review_fallback_fails p t t' o o' :
    codex_call e t p true = o -> o = Output [] \/ o = Timeout ->
    codex_call e t' p false = o' -> o' = Timeout \/ o' = Missing ->
    review_runs n prev
      [EInvoke n true p o; EInvoke n false p o'] (SysExit 1).

(** The runs of one iteration of the loop. *)
Inductive round_runs (n : Z) (prev : nat) (last : str)
  : list event -> result step -> Prop :=
| Round_first_output p t out ts :
    n = 1%Z -> codex_call e t p false = Output out ->
    round_runs n prev last
      [EInvoke 1 false p (Output out); EPersist 1 ts out]
      (Val (Continue (count_issues out) out))
| Round_first_fails p t o :
    n = 1%Z -> codex_call e t p false = o -> o = Timeout \/ o = Missing ->
    round_runs n prev last [EInvoke 1 false p o] (SysExit 1)
| Round_stopped line :
    n <> 1%Z -> no_interactive a = false ->
    round_runs n prev last [EInput line] (Val (Break prev last))
| Round_after_wait line t r :
    n <> 1%Z -> no_interactive a = false -> review_runs n prev t r ->
    round_runs n prev last (EInput line :: t) r
| Round_no_wait t r :
    n <> 1%Z -> no_interactive a = true -> review_runs n prev t r ->
    round_runs n prev last t r.

End RoundRelation.

From Stdlib Require DecimalN.

(* ================================================================== *)
(** * Vocabulary of the further properties *)
(* ================================================================== *)

(** The name [_split_on_heading] gives the section opened at [line]. *)
Definition heading_text (level : Z) (line : str) : str :=
  strip (skipn (length (heading_prefix level)) line).

(** A heading line [_split_on_heading] passes over: at level 1, the line
    that is the title. *)
Definition is_title_line (level : Z) (title line : str) : bool :=
  startswith (heading_prefix level) line
  && ((level =? 1)%Z && str_eqb line title).

(** The test of the title loop of [extract_sections]. *)
Definition is_h1 (line : str) : bool :=
  startswith (lit "# ") line && negb (startswith (lit "## ") line).

(** [lines] from the first one that satisfies [f] on. *)
Fixpoint drop_until (f : str -> bool) (lines : list str) : list str :=
  match lines with
  | [] => []
  | line :: rest => if f line then lines else drop_until f rest
  end.

(** The characters of a sanitized name. *)
Definition is_safe_char (c : char) : bool := is_az09 c || is_dash c.

(** A decimal numeral, with leading zeros or a sign, read back. *)
Fixpoint uint_of_digits (s : str) : Decimal.uint :=
  match s with
  | [] => Decimal.Nil
  | c :: r =>
      let d := uint_of_digits r in
      if (c =? 0x30)%N then Decimal.D0 d
      else if (c =? 0x31)%N then Decimal.D1 d
      else if (c =? 0x32)%N then Decimal.D2 d
      else if (c =? 0x33)%N then Decimal.D3 d
      else if (c =? 0x34)%N then Decimal.D4 d
      else if (c =? 0x35)%N then Decimal.D5 d
      else if (c =? 0x36)%N then Decimal.D6 d
      else if (c =? 0x37)%N then Decimal.D7 d
      else if (c =? 0x38)%N then Decimal.D8 d
      else if (c =? 0x39)%N then Decimal.D9 d
      else Decimal.Nil
  end.

Definition int_of_str (s : str) : Z :=
  match s with
  | c :: r => if (c =? DASH)%N then (- Z.of_N (N.of_uint (uint_of_digits r)))%Z
              else Z.of_N (N.of_uint (uint_of_digits s))
  | [] => 0%Z
  end.

Definition is_digit (c : char) : bool := ((0x30 <=? c) && (c <=? 0x39))%N.

(** The lines of one section: the line that opens it, then lines that
    are no headings of the level. *)
Definition is_span (level : Z) (title : str) (span : list str) : Prop :=
  exists h body,
    span = h :: body
    /\ is_split_point level title h = true
    /\ forallb (fun l => negb (startswith (heading_prefix level) l)) body
       = true.

(** A run of [alnum_runs]: not empty and made of [[a-z0-9]] only. *)
Definition is_run (w : str) : Prop :=
  w <> [] /\ forallb is_az09 w = true.

(** The output of the last round persisted in a trace, [d] when none
    was. *)
Definition last_output (t : list event) (d : str) : str :=
  fold_left (fun acc ev => match ev with
                           | EPersist _ _ out => out
                           | _ => acc
                           end) t d.

(** Whether a run starts by emptying the iteration directory. *)
Definition cleans_first (a : args) : bool :=
  match single_round a with
  | None => true
  | Some n => (n =? 1)%Z
  end.

(** The world the loop of a run starts in. *)
Definition start_world (e : env) (a : args) : world :=
  {| fs := if cleans_first a then [] else iteration_dir e; clock := 0 |}.

(** The same world with the files an earlier run left behind. *)
Definition with_earlier_files (e : env) (dir : files) : env :=
  {| section_file := section_file e;
     prompt_file := prompt_file e;
     iteration_dir := dir;
     codex_bin := codex_bin e;
     model := model e;
     subprocess_run := subprocess_run e;
     stdin_line := stdin_line e;
     revised_file := revised_file e;
     utcnow := utcnow e |}.

(** The run of round [n] alone, without pauses. *)
Definition only_round_quiet (n : Z) : args :=
  {| section_basename := lit "01-a";
     review_type := lit "architecture";
     max_rounds := 3;
     no_interactive := true;
     single_round := Some n |}.

(** What a first round and a stray file left behind. *)
Definition earlier_files : files :=
  [(lit "round-01.md", lit "# Iteration Round 1: Initial Review
🔴 One finding is open.
");
   (lit "notes.txt", lit "kept")].

(** A host where codex is installed and answers [stdout], and the disks
    of a section review and of a holistic review over its feedback. *)
Definition answering_host (stdout : str) : OneShot.host :=
  {| OneShot.which := fun name =>
       if str_eqb name (lit "codex") then Some (lit "/usr/local/bin/codex")
       else None;
     OneShot.win32 := false;
     OneShot.model := None;
     OneShot.timeout := 120;
     OneShot.subprocess_run := fun _ _ => Completed stdout;
     OneShot.utcnow := lit "2026-01-01T00:00:00+00:00" |}.

Definition section_disk : ReviewSection.disk :=
  {| ReviewSection.section_file := Some (lit "## A
body");
     ReviewSection.section_stem := lit "01-a";
     ReviewSection.prompt_file := fun review_type =>
       if str_eqb review_type (lit "architecture")
       then Some (lit "Review the architecture.")
       else None |}.

Definition section_argv : list str :=
  [lit "review_section.py"; lit ".codex-review/sections/01-a.md"].

Definition holistic_disk (pass1 : files) : ReviewHolistic.disk :=
  {| ReviewHolistic.plan_file := Some (lit "# Plan
## A
body
");
     ReviewHolistic.plan_name := lit "plan.md";
     ReviewHolistic.holistic_prompt := Some (lit "Review the whole plan.");
     ReviewHolistic.pass1_files := Some pass1 |}.

Definition holistic_argv : list str :=
  [lit "review_holistic.py"; lit "plan.md";
   lit ".codex-review/feedback/pass1"].

(* ================================================================== *)
(** * Facts about the string primitives *)
(* ================================================================== *)

Section StringFacts.

Local Open Scope N_scope.

Lemma str_eqb_eq (x y : str) : str_eqb x y = true <-> x = y.
Proof.
  revert y; induction x as [|c x IH]; intros [|d y]; simpl;
    try (split; [discriminate | discriminate]); try tauto.
  rewrite andb_true_iff, N.eqb_eq, IH.
  split; [intros [-> ->]; reflexivity | intros H; inversion H; auto].
Qed.

Lemma str_eqb_refl (x : str) : str_eqb x x = true.
Proof. apply str_eqb_eq; reflexivity. Qed.

Lemma rstrip_by_app f (x y : str) :
  rstrip_by f (x ++ y) =
  match rstrip_by f y with
  | [] => rstrip_by f x
  | y' => x ++ y'
  end.
Proof.
  induction x as [|c x IH]; simpl.
  - destruct (rstrip_by f y); reflexivity.
  - rewrite IH. destruct (rstrip_by f y); [reflexivity|].
    destruct x; reflexivity.
Qed.

Lemma rstrip_by_keep f (x : str) :
  forallb (fun c => negb (f c)) x = true -> rstrip_by f x = x.
Proof.
  induction x as [|c x IH]; simpl; [reflexivity|].
  rewrite andb_true_iff, negb_true_iff. intros [Hc Hx].
  rewrite (IH Hx), Hc. destruct x; reflexivity.
Qed.

Lemma join_nonempty sep (w : str) (ws : list str) :
  w <> [] -> join sep (w :: ws) <> [].
Proof.
  intros Hw. simpl. destruct ws; [exact Hw|].
  destruct w; [contradiction | discriminate].
Qed.

Lemma length_format_02d (i : Z) : (0 <= i)%Z -> (2 <= length (format_02d i))%nat.
Proof.
  intros Hi. destruct i as [|p|p]; try lia; unfold format_02d;
    rewrite length_app, repeat_length; unfold char; lia.
Qed.

Lemma format_02d_two_digits (i : Z) :
  (1 <= i <= 99)%Z ->
  format_02d i = [0x30 + Z.to_N (i / 10); 0x30 + Z.to_N (i mod 10)].
Proof.
  intros Hi.
  assert (Hall : forallb (fun n =>
            str_eqb (format_02d (Z.of_nat n))
              [0x30 + Z.to_N (Z.of_nat n / 10);
               0x30 + Z.to_N (Z.of_nat n mod 10)]) (seq 1 99) = true)
    by (vm_compute; reflexivity).
  rewrite forallb_forall in Hall.
  specialize (Hall (Z.to_nat i)).
  rewrite Z2Nat.id in Hall by lia.
  apply str_eqb_eq, Hall, in_seq. lia.
Qed.

End StringFacts.

(* ================================================================== *)
(** * Properties of the segmenter *)
(* ================================================================== *)

Section SplitFacts.

Local Open Scope N_scope.

Lemma is_nil_flush sections cn cl :
  is_nil (flush sections cn cl) = is_nil sections && is_none cn.
Proof.
  destruct cn; simpl; [|rewrite andb_true_r; reflexivity].
  rewrite andb_false_r. destruct sections; reflexivity.
Qed.

Lemma is_nil_split_loop level title lines : forall sections cn cl,
  is_nil (split_loop level title lines sections cn cl) =
  is_nil sections && is_none cn
  && negb (existsb (is_split_point level title) lines).
Proof.
  induction lines as [|line rest IH]; intros sections cn cl; simpl.
  - rewrite is_nil_flush, andb_true_r. reflexivity.
  - unfold is_split_point at 1.
    destruct (startswith (heading_prefix level) line); simpl.
    + destruct ((level =? 1)%Z && str_eqb line title); simpl.
      * apply IH.
      * rewrite IH. simpl. rewrite !andb_false_r. reflexivity.
    + destruct cn; rewrite IH; reflexivity.
Qed.

Lemma is_nil_split_on_heading lines level title :
  is_nil (_split_on_heading lines level title) =
  negb (existsb (is_split_point level title) lines).
Proof. unfold _split_on_heading. rewrite is_nil_split_loop. reflexivity. Qed.

Lemma flush_opened level title doc sections cn cl :
  Forall (opened_at level title doc) sections ->
  open_at level title doc cn cl ->
  Forall (opened_at level title doc) (flush sections cn cl).
Proof.
  intros Hs Hc. destruct cn as [nm|]; simpl; [|exact Hs].
  apply Forall_app; split; [exact Hs|].
  constructor; [|constructor].
  destruct (Hc nm eq_refl) as (line & body & -> & Hin & Hsp & ->).
  exists line, body. auto.
Qed.

Lemma split_loop_opened level title doc lines : forall sections cn cl,
  incl lines doc ->
  Forall (opened_at level title doc) sections ->
  open_at level title doc cn cl ->
  Forall (opened_at level title doc)
         (split_loop level title lines sections cn cl).
Proof.
  induction lines as [|line rest IH]; intros sections cn cl Hin Hs Hc; simpl.
  - apply flush_opened; assumption.
  - assert (Hrest : incl rest doc) by (intros x Hx; apply Hin; right; exact Hx).
    destruct (startswith (heading_prefix level) line) eqn:Hp.
    + destruct ((level =? 1)%Z && str_eqb line title) eqn:Ht.
      * apply IH; assumption.
      * apply IH; [assumption | apply flush_opened; assumption |].
        intros nm Hnm. inversion Hnm; subst nm; clear Hnm.
        exists line, []. repeat split.
        -- apply Hin; left; reflexivity.
        -- unfold is_split_point. rewrite Hp, Ht. reflexivity.
    + destruct cn as [nm|].
      * apply IH; [assumption | assumption |].
        intros nm' Hnm.
        destruct (Hc nm' Hnm) as (l0 & body & -> & H1 & H2 & H3).
        exists l0, (body ++ [line]). auto.
      * apply IH; [assumption | assumption |].
        intros nm Hnm; discriminate.
Qed.

Lemma split_on_heading_opened lines level title :
  Forall (opened_at level title lines) (_split_on_heading lines level title).
Proof.
  apply split_loop_opened.
  - apply incl_refl.
  - constructor.
  - intros nm Hnm; discriminate.
Qed.

(** The filter of [extract_sections] and the aliases of the TOC. *)

Lemma re_ichar_ascii_lower (p c : char) :
  ascii_lower_char p = p -> ascii_lower_char c = p -> re_ichar p c = true.
Proof.
  intros Hp Hc. unfold re_ichar. rewrite Hp, Hc, N.eqb_refl. reflexivity.
Qed.

Lemma re_iliteral_ascii_lower (p : str) : forall s,
  ascii_lower p = p -> ascii_lower s = p -> re_iliteral p s = Some [].
Proof.
  induction p as [|x p IH]; intros [|y s] Hp Hs; simpl in *;
    try discriminate; try reflexivity.
  injection Hp as Hx Hp'. injection Hs as Hy Hs'.
  rewrite (re_ichar_ascii_lower x y Hx Hy). apply IH; assumption.
Qed.

Lemma is_toc_name_alias (nm alias : str) :
  In alias toc_aliases -> ascii_lower nm = alias -> is_toc_name nm = true.
Proof.
  intros Hin Hnm. unfold is_toc_name. apply existsb_exists.
  exists alias. split; [exact Hin|].
  rewrite (re_iliteral_ascii_lower alias nm); [reflexivity | | exact Hnm].
  unfold toc_aliases in Hin. simpl in Hin.
  destruct Hin as [<-|[<-|[<-|[]]]]; vm_compute; reflexivity.
Qed.

Lemma extract_sections_not_toc text s :
  In s (extract_sections text) -> is_toc_name (name s) = false.
Proof.
  unfold extract_sections. intros Hin.
  apply in_map_iff in Hin. destruct Hin as (s0 & <- & Hin).
  apply filter_In in Hin. destruct Hin as [_ Hf]. simpl.
  apply negb_true_iff. exact Hf.
Qed.

(** [re.sub] followed by [strip("-")], against the runs of [[a-z0-9]]. *)

Lemma is_az09_not_dash c : is_az09 c = true -> is_dash c = false.
Proof.
  unfold is_dash. change (lit "-") with [45]. simpl.
  rewrite orb_false_r. intros H.
  destruct (N.eqb_spec c 45) as [->|]; [discriminate H | reflexivity].
Qed.

Lemma alnum_runs_from_nonempty s : forall cur,
  Forall (fun w => w <> []) (alnum_runs_from cur s).
Proof.
  induction s as [|c r IH]; intros cur; simpl.
  - destruct cur; constructor; [discriminate | constructor].
  - destruct (is_az09 c); [apply IH|].
    destruct cur; [apply IH|]. constructor; [discriminate | apply IH].
Qed.

Lemma lstrip_sub_in_run s :
  lstrip_by is_dash (sub_non_alnum true s) = sub_non_alnum true s.
Proof.
  induction s as [|c r IH]; simpl; [reflexivity|].
  destruct (is_az09 c) eqn:Hc; [|exact IH].
  simpl. rewrite (is_az09_not_dash _ Hc). reflexivity.
Qed.

Lemma lstrip_sub s :
  lstrip_by is_dash (sub_non_alnum false s) = sub_non_alnum true s.
Proof.
  destruct s as [|c r]; simpl; [reflexivity|].
  destruct (is_az09 c) eqn:Hc; simpl.
  - rewrite (is_az09_not_dash _ Hc). reflexivity.
  - apply lstrip_sub_in_run.
Qed.

Lemma rstrip_sub_runs s :
  (forall cur, cur <> [] -> forallb is_az09 cur = true ->
     rstrip_by is_dash (cur ++ sub_non_alnum false s)
     = join (lit "-") (alnum_runs_from cur s))
  /\ rstrip_by is_dash (sub_non_alnum true s)
     = join (lit "-") (alnum_runs_from [] s).
Proof.
  assert (Hkeep : forall cur, forallb is_az09 cur = true ->
                    rstrip_by is_dash cur = cur).
  { intros cur Hcur. apply rstrip_by_keep.
    rewrite forallb_forall in *. intros c Hc.
    rewrite (is_az09_not_dash _ (Hcur c Hc)). reflexivity. }
  induction s as [|c r [IHa IHb]]; simpl.
  - split; [|reflexivity]. intros cur Hne Hcur.
    rewrite app_nil_r, (Hkeep _ Hcur). destruct cur; [contradiction|reflexivity].
  - destruct (is_az09 c) eqn:Hc.
    + assert (Hstep : forall cur, forallb is_az09 cur = true ->
                rstrip_by is_dash (cur ++ c :: sub_non_alnum false r)
                = join (lit "-") (alnum_runs_from (cur ++ [c]) r)).
      { intros cur Hcur. rewrite <- IHa.
        - rewrite <- app_assoc. reflexivity.
        - destruct cur; discriminate.
        - rewrite forallb_app, Hcur. simpl. rewrite Hc. reflexivity. }
      split; [intros cur _ Hcur; apply Hstep; exact Hcur|].
      apply (Hstep [] eq_refl).
    + split; [|exact IHb]. intros cur Hne Hcur.
      rewrite rstrip_by_app. simpl. rewrite IHb.
      pose proof (alnum_runs_from_nonempty r []) as Hws.
      destruct (alnum_runs_from [] r) as [|w ws] eqn:Hruns.
      * simpl. rewrite (Hkeep _ Hcur). destruct cur; [contradiction|reflexivity].
      * inversion Hws as [|? ? Hw _]; subst.
        pose proof (join_nonempty (lit "-") w ws Hw) as Hj.
        destruct (join (lit "-") (w :: ws)) as [|j0 j] eqn:Hjoin;
          [contradiction|].
        destruct cur as [|c0 cur']; [contradiction|].
        change (join (lit "-") ((c0 :: cur') :: w :: ws))
          with ((c0 :: cur') ++ lit "-" ++ join (lit "-") (w :: ws)).
        rewrite Hjoin. reflexivity.
Qed.

Lemma sanitize_filename_runs (lower : str -> str) (nm : str) :
  sanitize_filename lower nm = join (lit "-") (alnum_runs (lower nm)).
Proof.
  unfold sanitize_filename, strip_chars, strip_by.
  change (fun c : char => existsb (N.eqb c) (lit "-")) with is_dash.
  rewrite lstrip_sub. apply (proj2 (rstrip_sub_runs (lower nm))).
Qed.

Lemma alnum_runs_none s :
  forallb (fun c => negb (is_az09 c)) s = true -> alnum_runs s = [].
Proof.
  unfold alnum_runs. induction s as [|c r IH]; simpl; [reflexivity|].
  rewrite andb_true_iff, negb_true_iff. intros [-> Hr]. apply IH, Hr.
Qed.

Lemma write_sections_indexed lower sections : forall k,
  write_sections lower (Z.of_nat k) sections =
  map (fun p => (section_filename lower (Z.of_nat (fst p)) (snd p),
                 content (snd p)))
      (combine (seq k (length sections)) sections).
Proof.
  induction sections as [|s rest IH]; intros k; simpl; [reflexivity|].
  f_equal. rewrite <- IH. f_equal. lia.
Qed.

End SplitFacts.

(* ================================================================== *)
(** * The segmenter: claims *)
(* ================================================================== *)

Section SegmenterClaims.

Local Open Scope N_scope.

(** C1.  Segmentation is not total: a text that is not empty and whose
    only second-level heading is named as a table of contents is split
    at level 2, the one section found is filtered out afterwards and
    [extract_sections] returns no section at all, although the text has
    third-level headings the fallback was written for. *)
Theorem C1_toc_only_document_yields_no_section :
  toc_only_text <> []
  /\ map name (split_cascade toc_only_text) = [lit "Table of Contents"]
  /\ extract_sections toc_only_text = []
  /\ snd (ExtractSections.main ascii_lower (Some toc_only_text)) = [].
Proof.
  split; [discriminate|]. repeat split; vm_compute; reflexivity.
Qed.


(** C7.  No section of the output has a name the TOC pattern matches; in
    particular none is named "table of contents", "toc" or "contents" in
    any mix of upper and lower case. *)
Theorem C7_toc_exclusion (text : str) (s : section) :
  In s (extract_sections text) ->
  is_toc_name (name s) = false
  /\ forall alias, In alias toc_aliases -> ascii_lower (name s) <> alias.
Proof.
  intros Hin. pose proof (extract_sections_not_toc text s Hin) as Hno.
  split; [exact Hno|]. intros alias Ha Heq.
  rewrite (is_toc_name_alias (name s) alias Ha Heq) in Hno. discriminate.
Qed.

Lemma C7_toc_exclusion_witness :
  In (mk_section (lit "B") (document_context toc_and_b_text ++ lit "## B
b"))
     (extract_sections toc_and_b_text)
  /\ map name (extract_sections toc_and_b_text) = [lit "B"]
  /\ ascii_lower (lit "B") <> lit "toc".
Proof.
  split; [vm_compute; left; reflexivity|].
  split; [vm_compute; reflexivity|].
  apply (C7_toc_exclusion toc_and_b_text
           (mk_section (lit "B") (document_context toc_and_b_text ++ lit "## B
b"))).
  - vm_compute; left; reflexivity.
  - vm_compute; right; left; reflexivity.
Defined.

(** C8.  The scenario of the design document: two sections, A and B in
    this order, each with the same context block in front, and the
    context block has the line "# Title". *)
Theorem C8_concrete_scenario :
  let context := lit "# Title

---
*The following is one section from the above document, extracted for focused review.*
---

" in
  extract_sections scenario_text =
    [ mk_section (lit "A") (context ++ lit "## A
body-a");
      mk_section (lit "B") (context ++ lit "## B
body-b") ]
  /\ document_context scenario_text = context
  /\ In (lit "# Title") (splitlines context).
Proof.
  repeat split; vm_compute; auto.
Qed.






End SegmenterClaims.

(* ================================================================== *)
(** * The review loop: what one round can do *)
(* ================================================================== *)

Section RoundSemantics.

Variable lower : str -> str.
Variable e : env.
Variable a : args.

Ltac fold_ending Ha :=
  match goal with
  | |- review_runs _ _ ?prev _ (Val (Break _ ?out)) =>
      replace (Break prev out) with (ending prev out)
        by (unfold ending; rewrite Ha; reflexivity)
  | |- review_runs _ _ ?prev _ (Val (Continue _ ?out)) =>
      replace (Continue (count_issues out) out) with (ending prev out)
        by (unfold ending; rewrite Ha; reflexivity)
  end.

Lemma review_revision_runs n prev w t w' r :
  review_revision e n prev w = (t, w', r) -> review_runs e n prev t r.
Proof.
  unfold review_revision, bind, read_revised, run_codex, now_iso, persist.
  destruct (revised_file e (clock w)) as [rc|]; simpl;
    [|intros H; inversion H; constructor].
  destruct (codex_call e (S (clock w)) (resume_prompt rc) true)
    as [[|c out]| |] eqn:H1; simpl.
  - destruct (codex_call e (S (S (clock w))) (resume_prompt rc) false)
      as [out'| |] eqn:H2; simpl.
    + destruct (approved out') eqn:Ha; simpl;
        intros H; inversion H; subst; fold_ending Ha;
        (eapply Review_fallback_output;
         [exact H1 | left; reflexivity | exact H2]).
    + intros H; inversion H; subst.
      eapply Review_fallback_fails; eauto.
    + intros H; inversion H; subst.
      eapply Review_fallback_fails; eauto.
  - destruct (approved (c :: out)) eqn:Ha; simpl;
      intros H; inversion H; subst; fold_ending Ha;
      (eapply Review_resume_output; [exact H1 | discriminate]).
  - destruct (codex_call e (S (S (clock w))) (resume_prompt rc) false)
      as [out'| |] eqn:H2; simpl.
    + destruct (approved out') eqn:Ha; simpl;
        intros H; inversion H; subst; fold_ending Ha;
        (eapply Review_fallback_output;
         [exact H1 | right; reflexivity | exact H2]).
    + intros H; inversion H; subst.
      eapply Review_fallback_fails; eauto.
    + intros H; inversion H; subst.
      eapply Review_fallback_fails; eauto.
  - intros H; inversion H; subst. eapply Review_resume_missing; eauto.
Qed.

Lemma round_body_runs rp sc n prev last w t w' r :
  round_body lower e a rp sc n prev last w = (t, w', r) ->
  round_runs e a n prev last t r.
Proof.
  unfold round_body. destruct (Z.eqb_spec n 1) as [->|Hn].
  - unfold first_round, bind, run_codex, now_iso, persist. simpl.
    destruct (codex_call e (clock w) (full_prompt rp sc) false)
      as [out| |] eqn:H1; simpl; intros H; inversion H; subst.
    + eapply Round_first_output; eauto.
    + eapply Round_first_fails; eauto.
    + eapply Round_first_fails; eauto.
  - unfold later_round, interactive.
    destruct (no_interactive a) eqn:Hi; simpl.
    + intros H. apply Round_no_wait; auto.
      eapply review_revision_runs; eauto.
    + unfold bind at 1. unfold input at 1.
      destruct (is_quit lower _).
      * simpl. intros H; inversion H; subst. apply Round_stopped; auto.
      * destruct (review_revision e n prev (tick w)) as [[t2 w2] r2] eqn:H2.
        intros H; inversion H; subst.
        apply Round_after_wait; auto.
        eapply review_revision_runs; eauto.
Qed.

End RoundSemantics.

(* ================================================================== *)
(** * The review loop: events of a whole run *)
(* ================================================================== *)

Section TraceFacts.

Context {A : Type}.

Lemma mid_nil (pre post : list A) (x : A) : pre ++ x :: post = [] -> False.
Proof. destruct pre; discriminate. Qed.

Lemma mid_cons (pre post l : list A) (x y : A) :
  pre ++ x :: post = y :: l ->
  (pre = [] /\ x = y /\ post = l)
  \/ (exists pre', pre = y :: pre' /\ pre' ++ x :: post = l).
Proof.
  destruct pre as [|z pre']; simpl; intros H; injection H as -> <-.
  - left; auto.
  - right; exists pre'; auto.
Qed.

Lemma mid_app (t1 t2 pre post : list A) (x : A) :
  t1 ++ t2 = pre ++ x :: post ->
  (exists post1, t1 = pre ++ x :: post1 /\ post = post1 ++ t2)
  \/ (exists pre2, pre = t1 ++ pre2 /\ t2 = pre2 ++ x :: post).
Proof.
  revert pre. induction t1 as [|y t1 IH]; intros pre H; simpl in H.
  - right; exists pre; auto.
  - destruct pre as [|z pre]; simpl in H; injection H as -> H.
    + left; exists t1; auto.
    + destruct (IH pre H) as [(post1 & -> & ->)|(pre2 & -> & ->)].
      * left; exists post1; auto.
      * right; exists pre2; auto.
Qed.

End TraceFacts.

Ltac mid_cases H :=
  match type of H with
  | _ ++ _ :: _ = [] => destruct (mid_nil _ _ _ H)
  | _ ++ _ :: _ = _ :: _ =>
      apply mid_cons in H;
      destruct H as [(? & ? & ?)|(? & ? & H)]; [|try mid_cases H]
  end.

Ltac find_mid :=
  match goal with
  | Heq : _ = _ ++ _ :: _ |- _ => symmetry in Heq; mid_cases Heq
  end.

Section LoopFacts.

Variable lower : str -> str.
Variable e : env.
Variable a : args.

(** Every event of the loop belongs to a round; and when that round
    ended the program or left the loop, the loop did nothing after it. *)
Lemma loop_event rp sc rounds : forall prev last w t w' r pre x post,
  loop lower e a rp sc rounds prev last w = (t, w', r) ->
  t = pre ++ x :: post ->
  exists n prev' last' t1 r1 pre1 post1 rest,
    In n rounds
    /\ round_runs e a n prev' last' t1 r1
    /\ t1 = pre1 ++ x :: post1
    /\ post = post1 ++ rest
    /\ match r1 with
       | SysExit code => rest = [] /\ r = SysExit code
       | Val (Break p l) => rest = [] /\ r = Val (p, l)
       | Val (Continue _ _) => True
       end.
Proof.
  induction rounds as [|n rest IH]; intros prev last w t w' r pre x post; simpl.
  - intros H Ht. injection H as H _ _. rewrite <- H in Ht.
    destruct (mid_nil _ _ _ (eq_sym Ht)).
  - unfold bind.
    destruct (round_body lower e a rp sc n prev last w) as [[t1 w1] r1] eqn:Hb.
    pose proof (round_body_runs lower e a _ _ _ _ _ _ _ _ _ Hb) as Hr.
    destruct r1 as [[p l|p l]|code].
    + destruct (loop lower e a rp sc rest p l w1) as [[t2 w2] r2] eqn:Hl.
      intros H Ht. injection H as H Hw Hres. subst w' r. rewrite <- H in Ht.
      destruct (mid_app _ _ _ _ _ Ht) as [(post1 & H1 & H2)|(pre2 & H1 & H2)].
      * exists n, prev, last, t1, (Val (Continue p l)), pre, post1, t2.
        repeat split; simpl; auto.
      * destruct (IH _ _ _ _ _ _ _ _ _ Hl H2)
          as (n' & prev' & last' & t1' & r1' & pre1 & post1 & rest' & Hin & H').
        exists n', prev', last', t1', r1', pre1, post1, rest'.
        split; [right; exact Hin | exact H'].
    + simpl. intros H Ht. injection H as H Hw Hres. subst w' r.
      rewrite <- H, app_nil_r in Ht.
      exists n, prev, last, t1, (Val (Break p l)), pre, post, [].
      rewrite app_nil_r. repeat split; simpl; auto.
    + intros H Ht. injection H as H Hw Hres. subst w' r. rewrite <- H in Ht.
      exists n, prev, last, t1, (SysExit code), pre, post, [].
      rewrite app_nil_r. repeat split; simpl; auto.
Qed.

(** A run is the loop followed, unless the program was ended, by the
    summary of the last output. *)
Lemma run_shape :
  (trace lower e a = [] /\ status lower e a = SysExit 1
   /\ (section_file e = None \/ prompt_file e = None))
  \/ exists rp sc w0 t w r,
       section_file e = Some sc /\ prompt_file e = Some rp
       /\ loop lower e a rp sc (rounds_to_run a) 0 [] w0 = (t, w, r)
       /\ match r with
          | SysExit code =>
              trace lower e a = t /\ status lower e a = SysExit code
          | Val pl =>
              trace lower e a =
                t ++ [ESummary (approved (snd pl))
                        (summary_text a (snd pl) (fs w))]
              /\ status lower e a = Val tt
          end.
Proof.
  unfold trace, status, run, main.
  destruct (section_file e) as [sc|]; [|left; simpl; auto].
  destruct (prompt_file e) as [rp|]; [|left; simpl; auto].
  right. exists rp, sc.
  set (w0 := {| fs := iteration_dir e; clock := 0 |}).
  assert (Hclean : exists w1,
    (match single_round a with
     | None => clean_iteration_dir
     | Some n => if (n =? 1)%Z then clean_iteration_dir else ret tt
     end) w0 = ([], w1, Val tt)).
  { destruct (single_round a) as [n|]; [destruct (n =? 1)%Z|];
      eexists; reflexivity. }
  destruct Hclean as (w1 & Hclean).
  exists w1.
  destruct (loop lower e a rp sc (rounds_to_run a) 0 [] w1) as [[t w] r] eqn:Hl.
  exists t, w, r.
  split; [reflexivity|]. split; [reflexivity|]. split; [reflexivity|].
  unfold bind. rewrite Hclean, Hl.
  destruct r as [pl|code]; simpl; auto.
Qed.

Lemma review_runs_no_input n prev t r line :
  review_runs e n prev t r -> ~ In (EInput line) t.
Proof.
  intros H Hin; inversion H; subst; simpl in Hin;
    repeat (destruct Hin as [Hin|Hin]; [discriminate Hin|]); exact Hin.
Qed.

Lemma read_write_text path text dir :
  read_text path (write_text path text dir) = Some text.
Proof.
  induction dir as [|[p t] rest IH]; simpl.
  - rewrite str_eqb_refl. reflexivity.
  - destruct (str_eqb p path) eqn:Hp; simpl.
    + rewrite str_eqb_refl. reflexivity.
    + rewrite Hp. exact IH.
Qed.

End LoopFacts.

Section RoundFacts.

Variable lower : str -> str.
Variable e : env.
Variable a : args.

(** A round persists its output as its last event. *)
Lemma review_persist n' prev t r pre n ts out post :
  review_runs e n' prev t r ->
  t = pre ++ EPersist n ts out :: post ->
  post = [] /\ n = n' /\ r = Val (ending prev out).
Proof.
  intros H Ht; inversion H; subst;
    match goal with H : _ = _ ++ _ :: _ |- _ => symmetry in H; mid_cases H end;
    subst; try discriminate;
    match goal with
    | H : EPersist _ _ _ = EPersist _ _ _ |- _ => injection H as -> -> ->
    end; auto.
Qed.

Lemma round_persist n' prev last t r pre n ts out post :
  round_runs e a n' prev last t r ->
  t = pre ++ EPersist n ts out :: post ->
  post = []
  /\ ((n = 1%Z /\ n' = 1%Z) \/ (n = n' /\ n' <> 1%Z /\ r = Val (ending prev out))).
Proof.
  intros H Ht; subst t; inversion H; subst; try find_mid; subst;
    try discriminate.
  - match goal with
    | Hev : EPersist _ _ _ = EPersist _ _ _ |- _ => injection Hev as -> -> ->
    end. auto.
  - match goal with
    | Hrev : review_runs _ _ _ _ _ |- _ =>
        destruct (review_persist _ _ _ _ _ _ _ _ _ Hrev eq_refl)
          as (-> & -> & ->)
    end. auto.
  - match goal with
    | H : review_runs _ _ _ _ _ |- _ =>
        destruct (review_persist _ _ _ _ _ _ _ _ _ H eq_refl)
          as (-> & -> & ->)
    end. auto.
Qed.

(** A call of the reviewer that timed out. *)
Lemma review_timeout n' prev t r pre n resume p post :
  review_runs e n' prev t r ->
  t = pre ++ EInvoke n resume p Timeout :: post ->
  n = n'
  /\ (resume = false -> post = [] /\ r = SysExit 1)
  /\ (resume = true ->
        (exists o, (o = Timeout \/ o = Missing)
                   /\ post = [EInvoke n false p o] /\ r = SysExit 1)
        \/ (exists out ts,
              post = [EInvoke n false p (Output out); EPersist n ts out]
              /\ r = Val (ending prev out))).
Proof.
  intros H Ht; inversion H; subst;
    match goal with H : _ = _ ++ _ :: _ |- _ => symmetry in H; mid_cases H end;
    subst; try discriminate;
    match goal with
    | H : EInvoke _ _ _ _ = EInvoke _ _ _ _ |- _ => injection H as -> -> -> Ho
    end;
    (split; [reflexivity|]); split; intros Hres;
    try discriminate Hres; auto.
  - (* the resume timed out, the fresh call answered *)
    right. exists out, ts. auto.
  - (* the resume timed out, the fresh call failed *)
    left. eexists. split; [eassumption | auto].
Qed.

Lemma round_timeout n' prev last t r pre n resume p post :
  round_runs e a n' prev last t r ->
  t = pre ++ EInvoke n resume p Timeout :: post ->
  (n = 1%Z /\ n' = 1%Z /\ post = [] /\ r = SysExit 1)
  \/ (n = n' /\ n' <> 1%Z
      /\ (resume = false -> post = [] /\ r = SysExit 1)
      /\ (resume = true ->
            (exists o, (o = Timeout \/ o = Missing)
                       /\ post = [EInvoke n false p o] /\ r = SysExit 1)
            \/ (exists out ts,
                  post = [EInvoke n false p (Output out); EPersist n ts out]
                  /\ r = Val (ending prev out)))).
Proof.
  intros H Ht; subst t; inversion H; subst; try find_mid; subst;
    try discriminate.
  - left. match goal with
    | Hev : EInvoke _ _ _ _ = EInvoke _ _ _ _ |- _ =>
        injection Hev as -> -> -> Ho
    end. auto.
  - match goal with
    | Hrev : review_runs _ _ _ _ _ |- _ =>
        destruct (review_timeout _ _ _ _ _ _ _ _ _ Hrev eq_refl)
          as (-> & Hf & Hr)
    end. right. auto.
  - match goal with
    | H : review_runs _ _ _ _ _ |- _ =>
        destruct (review_timeout _ _ _ _ _ _ _ _ _ H eq_refl)
          as (-> & Hf & Hr)
    end. right. auto.
Qed.

(** A resuming call when resuming always answers nothing and a fresh
    call always answers something. *)
Lemma review_resume_stub n' prev t r pre n p o post :
  (forall t p, codex_call e t p true = Output []) ->
  (forall t p, exists out, out <> [] /\ codex_call e t p false = Output out) ->
  review_runs e n' prev t r ->
  t = pre ++ EInvoke n true p o :: post ->
  exists out ts,
    out <> [] /\ post = [EInvoke n false p (Output out); EPersist n ts out].
Proof.
  intros Hresume Hfresh H Ht; inversion H; subst;
    match goal with H : _ = _ ++ _ :: _ |- _ => symmetry in H; mid_cases H end;
    subst; try discriminate;
    match goal with
    | H : EInvoke _ _ _ _ = EInvoke _ _ _ _ |- _ => injection H as -> -> Ho
    end; subst;
    repeat match goal with
           | Hc : codex_call e _ _ true = _ |- _ => rewrite Hresume in Hc
           | Hc : Output [] = Missing |- _ => discriminate Hc
           | Hc : Output [] = Output ?out, Hne : ?out <> [] |- _ =>
               injection Hc as <-; contradiction
           end.
  - (* the fresh call answered *)
    match goal with
    | Hc : codex_call e ?t ?p false = Output ?out |- _ =>
        destruct (Hfresh t p) as (out' & Hne & Hout');
        rewrite Hout' in Hc; injection Hc as <-; exists out', ts; auto
    end.
  - (* the fresh call cannot fail *)
    match goal with
    | Hc : codex_call e ?t ?p false = Timeout \/ _ |- _ =>
        destruct (Hfresh t p) as (out' & Hne & Hout');
        rewrite Hout' in Hc; destruct Hc as [Hc|Hc]; discriminate Hc
    end.
Qed.

Lemma round_resume_stub n' prev last t r pre n p o post :
  (forall t p, codex_call e t p true = Output []) ->
  (forall t p, exists out, out <> [] /\ codex_call e t p false = Output out) ->
  round_runs e a n' prev last t r ->
  t = pre ++ EInvoke n true p o :: post ->
  exists out ts,
    out <> [] /\ post = [EInvoke n false p (Output out); EPersist n ts out].
Proof.
  intros Hresume Hfresh H Ht; subst t; inversion H; subst; try find_mid; subst;
    try discriminate;
    eapply review_resume_stub; eauto.
Qed.

(** The interactive wait of a round. *)
Lemma round_input n prev last t r line :
  round_runs e a n prev last t r -> In (EInput line) t ->
  n <> 1%Z /\ no_interactive a = false.
Proof.
  intros H Hin; inversion H; subst; auto; exfalso.
  - simpl in Hin. destruct Hin as [Hin|[Hin|[]]]; discriminate Hin.
  - simpl in Hin. destruct Hin as [Hin|[]]; discriminate Hin.
  - eapply review_runs_no_input; eauto.
Qed.

(** Every event of a run but the summary belongs to a round. *)
Lemma run_event pre x post :
  trace lower e a = pre ++ x :: post ->
  (forall b text, x <> ESummary b text) ->
  section_file e <> None /\ prompt_file e <> None
  /\ exists n prev last t1 r1 pre1 post1 rest,
       In n (rounds_to_run a)
       /\ round_runs e a n prev last t1 r1
       /\ t1 = pre1 ++ x :: post1
       /\ post = post1 ++ rest
       /\ match r1 with
          | SysExit code => rest = [] /\ status lower e a = SysExit code
          | Val (Break p l) =>
              status lower e a = Val tt
              /\ exists dir,
                   rest = [ESummary (approved l) (summary_text a l dir)]
          | Val (Continue _ _) => True
          end.
Proof.
  intros Ht Hx.
  destruct (run_shape lower e a)
    as [(H0 & _)|(rp & sc & w0 & t & w & r & Hsc & Hrp & Hl & Hr)].
  - rewrite H0 in Ht. destruct (mid_nil _ _ _ (eq_sym Ht)).
  - split; [rewrite Hsc; discriminate|]. split; [rewrite Hrp; discriminate|].
    assert (Hloop : exists post_t,
              t = pre ++ x :: post_t
              /\ match r with
                 | SysExit _ => post = post_t
                 | Val pl => post = post_t ++
                     [ESummary (approved (snd pl))
                        (summary_text a (snd pl) (fs w))]
                 end).
    { destruct r as [pl|code]; destruct Hr as [Htr Hst].
      - rewrite Htr in Ht.
        destruct (mid_app _ _ _ _ _ Ht) as [(post1 & H1 & H2)|(pre2 & H1 & H2)].
        + exists post1. auto.
        + symmetry in H2. mid_cases H2. subst x. destruct (Hx _ _ eq_refl).
      - rewrite Htr in Ht. exists post. auto. }
    destruct Hloop as (post_t & Hd & Hpost).
    destruct (loop_event lower e a _ _ _ _ _ _ _ _ _ _ _ _ Hl Hd)
      as (n & prev & last & t1 & r1 & pre1 & post1 & rest
          & Hin & Hrun & Ht1 & Hpt & Hend).
    destruct r1 as [[p l|p l]|code].
    + destruct r as [pl|code]; destruct Hr as [Htr Hst].
      * exists n, prev, last, t1, (Val (Continue p l)), pre1, post1,
          (rest ++ [ESummary (approved (snd pl))
                      (summary_text a (snd pl) (fs w))]).
        rewrite Hpost, Hpt, app_assoc. auto 10.
      * exists n, prev, last, t1, (Val (Continue p l)), pre1, post1, rest.
        rewrite Hpost, Hpt. auto 10.
    + destruct Hend as [-> ->]. destruct Hr as [Htr Hst].
      exists n, prev, last, t1, (Val (Break p l)), pre1, post1,
        [ESummary (approved l) (summary_text a l (fs w))].
      rewrite Hpost, Hpt, app_nil_r. simpl. eauto 10.
    + destruct Hend as [-> ->]. destruct Hr as [Htr Hst].
      exists n, prev, last, t1, (SysExit code), pre1, post1, [].
      rewrite Hpost, Hpt. auto 10.
Qed.

End RoundFacts.

(* ================================================================== *)
(** * The review loop: claims *)
(* ================================================================== *)

Section LoopClaims.

Lemma join_cons_cons sep (x y : str) (l : list str) :
  join sep (x :: y :: l) = x ++ sep ++ join sep (y :: l).
Proof. reflexivity. Qed.

Lemma summary_text_approved a last dir :
  approved last = true ->
  exists before after,
    summary_text a last dir = before ++ lit "- **Approved**: yes" ++ after.
Proof.
  intros Ha. unfold summary_text. rewrite Ha.
  change (lit "- **Approved**: yes")
    with (lit "- **Approved**: " ++ lit "yes").
  exists (lit "# Iteration Summary: " ++ section_basename a ++ [LF] ++ [LF]
          ++ lit "- **Review type**: " ++ review_type a ++ [LF]).
  eexists.
  change ((?x :: ?y :: ?z :: ?u :: ?l) ++ ?m)
    with (x :: y :: z :: u :: (l ++ m)).
  do 3 rewrite join_cons_cons.
  rewrite <- !app_assoc. reflexivity.
Qed.












End LoopClaims.

(* ================================================================== *)
(** * The segmenter: further properties *)
(* ================================================================== *)

Section SegmenterMore.

Local Open Scope N_scope.

Lemma split_loop_names level title lines : forall sections cn cl,
  map name (split_loop level title lines sections cn cl) =
  map name sections
  ++ match cn with Some nm => [nm] | None => [] end
  ++ map (heading_text level) (filter (is_split_point level title) lines).
Proof.
  induction lines as [|line rest IH]; intros sections cn cl; simpl.
  - destruct cn; simpl; [rewrite map_app|rewrite app_nil_r]; reflexivity.
  - unfold is_split_point at 1.
    destruct (startswith (heading_prefix level) line); simpl.
    + destruct ((level =? 1)%Z && str_eqb line title); simpl.
      * apply IH.
      * rewrite IH. destruct cn; simpl.
        -- rewrite map_app, <- app_assoc. reflexivity.
        -- reflexivity.
    + destruct cn; apply IH.
Qed.

(** X1.  The sections of [_split_on_heading] are as many as the lines
    that open one and come in the order of these lines, each named by
    the text of its line behind the heading marker, stripped. *)
Theorem X1_split_names_follow_heading_lines lines level title :
  map name (_split_on_heading lines level title) =
  map (heading_text level) (filter (is_split_point level title) lines)
  /\ length (_split_on_heading lines level title) =
     length (filter (is_split_point level title) lines).
Proof.
  assert (H : map name (_split_on_heading lines level title) =
              map (heading_text level)
                  (filter (is_split_point level title) lines))
    by (unfold _split_on_heading; rewrite split_loop_names; reflexivity).
  split; [exact H|].
  rewrite <- (length_map name), H, length_map. reflexivity.
Qed.

Lemma split_loop_spans level title lines : forall sections cn cl,
  (cn <> None -> is_span level title cl) ->
  exists spans,
    map content (split_loop level title lines sections cn cl)
      = map content sections ++ map (join [LF]) spans
    /\ concat spans =
       match cn with
       | Some _ =>
           cl ++ filter (fun l => negb (is_title_line level title l)) lines
       | None =>
           drop_until (is_split_point level title)
             (filter (fun l => negb (is_title_line level title l)) lines)
       end
    /\ Forall (is_span level title) spans.
Proof.
  induction lines as [|line rest IH]; intros sections cn cl Hcl.
  - simpl. destruct cn as [nm|]; simpl.
    + exists [cl]. rewrite map_app. simpl. rewrite !app_nil_r.
      repeat split. constructor; [apply Hcl; discriminate | constructor].
    + exists []. simpl. rewrite app_nil_r. repeat split. constructor.
  - cbn [split_loop filter].
    destruct (startswith (heading_prefix level) line) eqn:Hp.
    + destruct ((level =? 1)%Z && str_eqb line title) eqn:Ht.
      * assert (Htl : is_title_line level title line = true)
          by (unfold is_title_line; rewrite Hp, Ht; reflexivity).
        rewrite Htl. simpl negb. cbv iota. apply IH; exact Hcl.
      * assert (Htl : is_title_line level title line = false)
          by (unfold is_title_line; rewrite Hp, Ht; reflexivity).
        assert (Hsp : is_split_point level title line = true)
          by (unfold is_split_point; rewrite Hp, Ht; reflexivity).
        rewrite Htl. simpl negb. cbv iota. cbn [drop_until]. rewrite Hsp.
        assert (Hline : is_span level title [line])
          by (exists line, []; auto).
        destruct (IH (flush sections cn cl)
                     (Some (strip (skipn (length (heading_prefix level)) line)))
                     [line] (fun _ => Hline))
          as (spans & Hc & Hcat & Hall).
        destruct cn as [nm|]; cbn [flush] in *.
        -- exists (cl :: spans). rewrite Hc, map_app. simpl.
           rewrite <- app_assoc. simpl. rewrite Hcat.
           repeat split. constructor; [apply Hcl; discriminate | exact Hall].
        -- exists spans. rewrite Hc. simpl in Hcat. rewrite Hcat.
           repeat split. exact Hall.
    + assert (Htl : is_title_line level title line = false)
        by (unfold is_title_line; rewrite Hp; reflexivity).
      assert (Hsp : is_split_point level title line = false)
        by (unfold is_split_point; rewrite Hp; reflexivity).
      rewrite Htl. simpl negb. cbv iota. cbn [drop_until]. rewrite Hsp.
      destruct cn as [nm|].
      * destruct (IH sections (Some nm) (cl ++ [line]))
          as (spans & Hc & Hcat & Hall).
        { intros _.
          destruct (Hcl ltac:(discriminate)) as (h & body & -> & Hh & Hb).
          exists h, (body ++ [line]). repeat split; [exact Hh|].
          rewrite forallb_app, Hb. simpl. rewrite Hp. reflexivity. }
        exists spans. rewrite Hc, Hcat, <- app_assoc. repeat split. exact Hall.
      * destruct (IH sections None cl) as (spans & Hc & Hcat & Hall);
          [intros H; contradiction|].
        exists spans. rewrite Hc, Hcat. repeat split. exact Hall.
Qed.

(** X2.  [_split_on_heading] loses and repeats nothing from the first
    heading line on: the contents of its sections are the joined lines
    of consecutive spans, each made of one line that opens a section and
    the lines up to the next one, and the spans put end to end are the
    lines of the text from the first such line on, the lines equal to
    the title left out at level 1.  What stands before the first heading
    line is in no section. *)
Theorem X2_split_contents_partition_the_text lines level title :
  exists spans,
    map content (_split_on_heading lines level title) = map (join [LF]) spans
    /\ concat spans =
       drop_until (is_split_point level title)
         (filter (fun l => negb (is_title_line level title l)) lines)
    /\ Forall (is_span level title) spans.
Proof.
  destruct (split_loop_spans level title lines [] None [])
    as (spans & Hc & Hcat & Hall); [intros H; contradiction|].
  exists spans. auto.
Qed.

Lemma find_first {A} (f : A -> bool) (l : list A) :
  match find f l with
  | Some x => exists pre post,
      l = pre ++ x :: post /\ f x = true
      /\ forallb (fun y => negb (f y)) pre = true
  | None => forallb (fun y => negb (f y)) l = true
  end.
Proof.
  induction l as [|y l IH]; simpl; [reflexivity|].
  destruct (f y) eqn:Hy.
  - exists [], l. auto.
  - destruct (find f l) as [x|].
    + destruct IH as (pre & post & -> & Hx & Hpre).
      exists (y :: pre), post. simpl. rewrite Hy. auto.
    + simpl. exact IH.
Qed.

(** X3.  The title is the first line of the text that starts with "# ",
    or "# Untitled Document" when no line does; so it always starts with
    "# ". *)
Theorem X3_title_is_first_h1_or_default (lines : list str) :
  startswith (lit "# ") (extract_title lines) = true
  /\ ((exists pre post,
         lines = pre ++ extract_title lines :: post
         /\ forallb (fun l => negb (is_h1 l)) pre = true)
      \/ (extract_title lines = lit "# Untitled Document"
          /\ forallb (fun l => negb (is_h1 l)) lines = true)).
Proof.
  unfold extract_title. fold is_h1.
  pose proof (find_first is_h1 lines) as H.
  destruct (find is_h1 lines) as [x|].
  - destruct H as (pre & post & Hl & Hx & Hpre). split.
    + unfold is_h1 in Hx. apply andb_true_iff in Hx. apply Hx.
    + left. exists pre, post. auto.
  - split; [reflexivity|]. right. auto.
Qed.

Lemma extract_toc_lines (lines : list str) : forall in_toc,
  Forall (fun l => In l lines
                   /\ startswith (lit "## ") l = false
                   /\ is_toc_heading l = false)
         (extract_toc in_toc lines).
Proof.
  induction lines as [|line rest IH]; intros in_toc; cbn [extract_toc];
    [constructor|].
  assert (Hweak : forall b,
    Forall (fun l => In l (line :: rest)
                     /\ startswith (lit "## ") l = false
                     /\ is_toc_heading l = false) (extract_toc b rest)).
  { intros b. eapply Forall_impl; [|apply IH].
    intros l (H1 & H2 & H3).
    split; [right; exact H1 | split; assumption]. }
  destruct (is_toc_heading line) eqn:Hh; [apply Hweak|].
  destruct in_toc; [|apply Hweak].
  destruct (startswith (lit "## ") line) eqn:Hs; [constructor|].
  constructor; [|apply Hweak].
  split; [left; reflexivity | split; assumption].
Qed.

(** X4.  The lines collected for the outline are lines of the text, none
    of them starts with "## " and none is a TOC heading; and without a
    TOC heading in the text nothing is collected. *)
Theorem X4_toc_lines (lines : list str) :
  Forall (fun l => In l lines
                   /\ startswith (lit "## ") l = false
                   /\ is_toc_heading l = false)
         (extract_toc false lines)
  /\ (existsb is_toc_heading lines = false -> extract_toc false lines = []).
Proof.
  split; [apply extract_toc_lines|].
  induction lines as [|line rest IH]; cbn [extract_toc existsb];
    [reflexivity|].
  intros H. apply orb_false_iff in H. destruct H as [-> H]. apply IH, H.
Qed.

Lemma X4_toc_lines_witness :
  existsb is_toc_heading (splitlines scenario_text) = false
  /\ extract_toc false (splitlines scenario_text) = [].
Proof.
  split; [vm_compute; reflexivity|].
  apply (proj2 (X4_toc_lines (splitlines scenario_text))).
  vm_compute; reflexivity.
Defined.

Lemma split_cascade_not_nil text : split_cascade text <> [].
Proof.
  unfold split_cascade.
  destruct (_split_on_heading _ 2 _); [|discriminate].
  destruct (_split_on_heading _ 3 _); [|discriminate].
  destruct (_split_on_heading _ 1 _); discriminate.
Qed.

Lemma filter_nil_forallb {A} (f : A -> bool) (l : list A) :
  filter f l = [] <-> forallb (fun x => negb (f x)) l = true.
Proof.
  induction l as [|x l IH]; simpl; [tauto|].
  destruct (f x); simpl; [split; discriminate | exact IH].
Qed.

(** X5.  The fallbacks always leave at least one section to filter, and
    [extract_sections] returns none exactly when every one of them has a
    name the TOC pattern matches; the names it returns are the other
    names, in order. *)
Theorem X5_output_empty_iff_all_toc (text : str) :
  split_cascade text <> []
  /\ (extract_sections text = [] <->
      forallb (fun s => is_toc_name (name s)) (split_cascade text) = true)
  /\ map name (extract_sections text) =
     filter (fun nm => negb (is_toc_name nm)) (map name (split_cascade text)).
Proof.
  split; [apply split_cascade_not_nil|]. split.
  - unfold extract_sections.
    set (kept := filter (fun s => negb (is_toc_name (name s)))
                        (split_cascade text)).
    assert (Hk : kept = [] <->
                 forallb (fun s => is_toc_name (name s)) (split_cascade text)
                 = true).
    { unfold kept. rewrite filter_nil_forallb.
      assert (Hext : forall l : list section,
                forallb (fun x => negb (negb (is_toc_name (name x)))) l
                = forallb (fun s => is_toc_name (name s)) l)
        by (intros l; induction l as [|x l IHl]; simpl;
            [|rewrite negb_involutive, IHl]; reflexivity).
      rewrite Hext. tauto. }
    rewrite <- Hk. split.
    + apply map_eq_nil.
    + intros ->. reflexivity.
  - unfold extract_sections. rewrite map_map. simpl.
    induction (split_cascade text) as [|s l IH]; simpl; [reflexivity|].
    destruct (is_toc_name (name s)); simpl; rewrite IH; reflexivity.
Qed.

End SegmenterMore.

(* ================================================================== *)
(** * File names: further properties *)
(* ================================================================== *)

Section FileNames.

Local Open Scope N_scope.

Lemma alnum_runs_from_runs s : forall cur,
  forallb is_az09 cur = true -> Forall is_run (alnum_runs_from cur s).
Proof.
  induction s as [|c r IH]; intros cur Hcur; simpl.
  - destruct cur as [|c0 cur']; constructor; [|constructor].
    split; [discriminate | exact Hcur].
  - destruct (is_az09 c) eqn:Hc.
    + apply IH. rewrite forallb_app, Hcur. simpl. rewrite Hc. reflexivity.
    + destruct cur as [|c0 cur']; [apply IH; reflexivity|].
      constructor; [split; [discriminate | exact Hcur] | apply IH; reflexivity].
Qed.

Lemma dash_not_az09 : is_az09 DASH = false.
Proof. reflexivity. Qed.

Lemma az09_neq_dash c : is_az09 c = true -> (DASH =? c) = false.
Proof.
  intros H. destruct (N.eqb_spec DASH c) as [<-|]; [discriminate H|reflexivity].
Qed.

Lemma join_dash_cons (w : str) (ws : list str) :
  join [DASH] (w :: ws) =
  w ++ match ws with [] => [] | _ => DASH :: join [DASH] ws end.
Proof. destruct ws; simpl; [rewrite app_nil_r|]; reflexivity. Qed.

(** The first character of joined runs is no dash. *)
Lemma join_runs_head (ws : list str) :
  Forall is_run ws -> startswith [DASH] (join [DASH] ws) = false.
Proof.
  intros H. destruct H as [|w ws [Hne Hw] _]; [reflexivity|].
  rewrite join_dash_cons. destruct w as [|c w]; [contradiction|].
  cbn [forallb] in Hw. apply andb_true_iff in Hw. destruct Hw as [Hc _].
  cbn [app startswith]. rewrite (az09_neq_dash c Hc). reflexivity.
Qed.

Lemma join_runs_safe (ws : list str) :
  Forall is_run ws -> forallb is_safe_char (join [DASH] ws) = true.
Proof.
  induction 1 as [|w ws [Hne Hw] _ IH]; [reflexivity|].
  rewrite join_dash_cons, forallb_app. apply andb_true_iff. split.
  - rewrite forallb_forall in *. intros c Hc. unfold is_safe_char.
    rewrite (Hw c Hc). reflexivity.
  - destruct ws; [reflexivity|]. cbn [forallb]. rewrite IH. reflexivity.
Qed.

Lemma contains_dashes_run (w x : str) :
  forallb is_az09 w = true ->
  contains [DASH; DASH] (w ++ x) = contains [DASH; DASH] x.
Proof.
  induction w as [|c w IH]; intros Hw; [reflexivity|].
  cbn [forallb] in Hw. apply andb_true_iff in Hw. destruct Hw as [Hc Hw].
  cbn [app contains startswith]. rewrite (az09_neq_dash c Hc).
  cbn [andb orb]. apply IH, Hw.
Qed.

Lemma join_runs_no_double_dash (ws : list str) :
  Forall is_run ws -> contains [DASH; DASH] (join [DASH] ws) = false.
Proof.
  induction 1 as [|w ws [Hne Hw] Hws IH]; [reflexivity|].
  rewrite join_dash_cons, (contains_dashes_run _ _ Hw).
  destruct ws as [|w2 ws']; [reflexivity|].
  cbn [contains]. rewrite IH, orb_false_r.
  cbn [startswith]. rewrite N.eqb_refl. simpl andb.
  apply (join_runs_head _ Hws).
Qed.

Lemma endswith_dash_snoc (x : str) (c : char) :
  endswith [DASH] (x ++ [c]) = (DASH =? c).
Proof.
  unfold endswith. rewrite rev_app_distr. simpl. apply andb_true_r.
Qed.

Lemma join_runs_last (ws : list str) :
  Forall is_run ws -> endswith [DASH] (join [DASH] ws) = false.
Proof.
  induction 1 as [|w ws [Hne Hw] Hws IH]; [reflexivity|].
  rewrite join_dash_cons. destruct ws as [|w2 ws'].
  - rewrite app_nil_r.
    destruct (exists_last Hne) as (x & c & ->).
    rewrite endswith_dash_snoc. apply az09_neq_dash.
    rewrite forallb_app in Hw. apply andb_true_iff in Hw.
    destruct Hw as [_ Hc]. simpl in Hc. rewrite andb_true_r in Hc. exact Hc.
  - assert (Hj : join [DASH] (w2 :: ws') <> []).
    { inversion Hws as [|? ? [Hne2 _] _]; subst.
      apply join_nonempty, Hne2. }
    revert IH Hj. unfold endswith.
    rewrite (rev_app_distr w). cbn [rev].
    generalize (join [DASH] (w2 :: ws')). intros j IH Hj.
    destruct (rev j) as [|c r] eqn:Hr.
    + exfalso. apply Hj. rewrite <- (rev_involutive j), Hr. reflexivity.
    + exact IH.
Qed.

Lemma alnum_runs_from_app (w x : str) : forall cur,
  forallb is_az09 w = true ->
  alnum_runs_from cur (w ++ x) = alnum_runs_from (cur ++ w) x.
Proof.
  induction w as [|c w IH]; intros cur Hw; simpl.
  - rewrite app_nil_r. reflexivity.
  - simpl in Hw. apply andb_true_iff in Hw. destruct Hw as [Hc Hw].
    rewrite Hc, (IH _ Hw), <- app_assoc. reflexivity.
Qed.

Lemma alnum_runs_join (ws : list str) :
  Forall is_run ws -> alnum_runs (join [DASH] ws) = ws.
Proof.
  unfold alnum_runs.
  induction 1 as [|w ws [Hne Hw] Hws IH]; [reflexivity|].
  rewrite join_dash_cons, (alnum_runs_from_app _ _ _ Hw). simpl app.
  destruct ws as [|w2 ws'].
  - simpl. destruct w; [contradiction|reflexivity].
  - cbn [alnum_runs_from]. rewrite dash_not_az09, IH.
    destruct w; [contradiction|reflexivity].
Qed.

Lemma sanitize_filename_join (lower : str -> str) (nm : str) :
  sanitize_filename lower nm = join [DASH] (alnum_runs (lower nm))
  /\ Forall is_run (alnum_runs (lower nm)).
Proof.
  split; [apply sanitize_filename_runs|].
  apply alnum_runs_from_runs. reflexivity.
Qed.

(** X6.  A sanitized name is safe as a file name: it holds characters
    of [[a-z0-9]] and "-" only (so no "/", no ".", no white space), it
    neither starts nor ends with "-", and it has no two "-" in a row. *)
Theorem X6_sanitized_name_is_safe (lower : str -> str) (nm : str) :
  forallb is_safe_char (sanitize_filename lower nm) = true
  /\ startswith (lit "-") (sanitize_filename lower nm) = false
  /\ endswith (lit "-") (sanitize_filename lower nm) = false
  /\ contains (lit "--") (sanitize_filename lower nm) = false.
Proof.
  destruct (sanitize_filename_join lower nm) as [-> Hruns].
  change (lit "-") with [DASH]. change (lit "--") with [DASH; DASH].
  split; [apply join_runs_safe, Hruns|].
  split; [apply join_runs_head, Hruns|].
  split; [apply join_runs_last, Hruns|].
  apply join_runs_no_double_dash, Hruns.
Qed.

(** X7.  Sanitizing is idempotent: for a lower-casing that leaves the
    characters of [[a-z0-9]] and "-" alone, a sanitized name is
    sanitized to itself. *)
Theorem X7_sanitize_idempotent (lower : str -> str) (nm : str) :
  (forall s, forallb is_safe_char s = true -> lower s = s) ->
  sanitize_filename lower (sanitize_filename lower nm)
  = sanitize_filename lower nm.
Proof.
  intros Hlower.
  destruct (sanitize_filename_join lower nm) as [Hs Hruns].
  rewrite (sanitize_filename_runs lower (sanitize_filename lower nm)).
  rewrite Hlower.
  - rewrite Hs. change (lit "-") with [DASH].
    rewrite (alnum_runs_join _ Hruns). reflexivity.
  - rewrite Hs. change (lit "-") with [DASH]. apply join_runs_safe, Hruns.
Qed.

Lemma ascii_lower_safe (s : str) :
  forallb is_safe_char s = true -> ascii_lower s = s.
Proof.
  induction s as [|c s IH]; simpl; [reflexivity|].
  rewrite andb_true_iff. intros [Hc Hs]. rewrite (IH Hs). f_equal.
  unfold ascii_lower_char.
  destruct ((0x41 <=? c) && (c <=? 0x5A)) eqn:Hup; [|reflexivity].
  exfalso. apply andb_true_iff in Hup. destruct Hup as [H1 H2].
  apply N.leb_le in H1, H2.
  unfold is_safe_char, is_az09, is_dash in Hc.
  change (lit "-") with [45] in Hc. simpl in Hc.
  repeat (apply orb_true_iff in Hc; destruct Hc as [Hc|Hc]);
    try (apply andb_true_iff in Hc; destruct Hc as [H3 H4];
         apply N.leb_le in H3, H4; lia);
    try (apply N.eqb_eq in Hc; lia); discriminate.
Qed.

Lemma X7_sanitize_idempotent_witness :
  (forall s, forallb is_safe_char s = true -> ascii_lower s = s)
  /\ sanitize_filename ascii_lower (lit "  Phase 2: Roll-out (v1.0)! ")
     = lit "phase-2-roll-out-v1-0"
  /\ sanitize_filename ascii_lower
       (sanitize_filename ascii_lower (lit "  Phase 2: Roll-out (v1.0)! "))
     = sanitize_filename ascii_lower (lit "  Phase 2: Roll-out (v1.0)! ").
Proof.
  split; [exact ascii_lower_safe|].
  split; [vm_compute; reflexivity|].
  apply (X7_sanitize_idempotent ascii_lower
           (lit "  Phase 2: Roll-out (v1.0)! ") ascii_lower_safe).
Defined.

(** The order prefix read back. *)

Lemma digits_of_uint_digits (d : Decimal.uint) :
  forallb is_digit (digits_of_uint d) = true.
Proof. induction d; simpl; auto. Qed.

Lemma uint_of_digits_of_uint (d : Decimal.uint) :
  uint_of_digits (digits_of_uint d) = d.
Proof. induction d; simpl; try rewrite IHd; reflexivity. Qed.

Lemma of_uint_zeros (k : nat) (s : str) :
  N.of_uint (uint_of_digits (repeat 0x30 k ++ s))
  = N.of_uint (uint_of_digits s).
Proof. induction k as [|k IH]; simpl; [reflexivity | exact IH]. Qed.

Lemma of_uint_padded (k : nat) (n : N) :
  N.of_uint (uint_of_digits (repeat 0x30 k ++ str_of_N n)) = n.
Proof.
  rewrite of_uint_zeros. unfold str_of_N.
  rewrite uint_of_digits_of_uint. apply DecimalN.Unsigned.of_to.
Qed.

Lemma format_02d_digits (z : Z) :
  (0 <= z)%Z -> forallb is_digit (format_02d z) = true.
Proof.
  intros Hz. destruct z as [|p|p]; try lia; unfold format_02d;
    rewrite forallb_app; apply andb_true_iff; split;
    try apply digits_of_uint_digits;
    apply forallb_forall; intros c Hc; apply repeat_spec in Hc; subst c;
    reflexivity.
Qed.

Lemma int_of_str_format_02d (z : Z) : int_of_str (format_02d z) = z.
Proof.
  destruct z as [|p|p].
  - reflexivity.
  - pose proof (format_02d_digits (Zpos p) ltac:(lia)) as Hd.
    pose proof (of_uint_padded
                  (2 - length (str_of_N (Z.to_N (Zpos p)))) (Z.to_N (Zpos p)))
      as Hv.
    unfold format_02d in *.
    destruct (repeat 0x30 _ ++ str_of_N _) as [|c r]; unfold int_of_str.
    + simpl in Hv. discriminate Hv.
    + simpl in Hd. apply andb_true_iff in Hd. destruct Hd as [Hc _].
      destruct (N.eqb_spec c DASH) as [->|_]; [discriminate Hc|].
      rewrite Hv. reflexivity.
  - unfold format_02d, int_of_str. rewrite N.eqb_refl.
    rewrite of_uint_padded. reflexivity.
Qed.

Lemma format_02d_inj (z z' : Z) : format_02d z = format_02d z' -> z = z'.
Proof.
  intros H. rewrite <- (int_of_str_format_02d z), H.
  apply int_of_str_format_02d.
Qed.

Lemma digits_before_dash (d1 d2 x1 x2 : str) :
  forallb is_digit d1 = true -> forallb is_digit d2 = true ->
  d1 ++ DASH :: x1 = d2 ++ DASH :: x2 -> d1 = d2.
Proof.
  revert d2. induction d1 as [|c d1 IH]; intros [|c2 d2] H1 H2 H; simpl in *.
  - reflexivity.
  - injection H as <- _. discriminate H2.
  - injection H as -> _. discriminate H1.
  - injection H as <- H. f_equal.
    apply andb_true_iff in H1, H2. apply IH; tauto.
Qed.

Lemma section_filename_inj lower (i j : Z) (s s' : section) :
  (0 <= i)%Z -> (0 <= j)%Z ->
  section_filename lower i s = section_filename lower j s' -> i = j.
Proof.
  unfold section_filename. change (lit "-") with [DASH]. simpl app.
  intros Hi Hj H. apply format_02d_inj.
  eapply digits_before_dash; [| |exact H]; apply format_02d_digits; assumption.
Qed.

Lemma write_sections_names lower sections : forall i f,
  In f (map fst (write_sections lower i sections)) ->
  exists j s, (i <= j)%Z /\ f = section_filename lower j s.
Proof.
  induction sections as [|s rest IH]; intros i f; simpl; [intros []|].
  intros [<-|Hin].
  - exists i, s. split; [lia | reflexivity].
  - destruct (IH _ _ Hin) as (j & s' & Hj & ->).
    exists j, s'. split; [lia | reflexivity].
Qed.

Lemma write_sections_nodup lower sections : forall i,
  (0 <= i)%Z -> NoDup (map fst (write_sections lower i sections)).
Proof.
  induction sections as [|s rest IH]; intros i Hi; simpl; constructor.
  - intros Hin. destruct (write_sections_names _ _ _ _ Hin) as (j & s' & Hj & H).
    apply section_filename_inj in H; lia.
  - apply IH. lia.
Qed.

(** X8.  The files [main] writes for one plan all have different names,
    whatever the section names are, since the order prefix tells them
    apart; and it writes one file per extracted section. *)
Theorem X8_section_files_are_distinct (lower : str -> str) (text : str) :
  NoDup (map fst (snd (ExtractSections.main lower (Some text))))
  /\ length (snd (ExtractSections.main lower (Some text)))
     = length (extract_sections text).
Proof.
  simpl. split; [apply write_sections_nodup; lia|].
  generalize 1%Z. induction (extract_sections text) as [|s l IH]; intros i;
    simpl; [reflexivity | rewrite IH; reflexivity].
Qed.

End FileNames.

(* ================================================================== *)
(** * The review loop: further properties *)
(* ================================================================== *)

Section IssueCount.

Local Open Scope N_scope.

(** X9.  [count_issues] counts the critical and warning glyphs and
    nothing else: it adds up over concatenation, a text without these
    two glyphs counts zero, whatever else it holds, and the count is
    never more than the length of the text. *)
Theorem X9_count_issues_counts_two_glyphs (x y : str) :
  count_issues (x ++ y) = (count_issues x + count_issues y)%nat
  /\ (count_issues x <= length x)%nat
  /\ (count_issues x = 0%nat <->
      forallb (fun c => negb ((c =? 0x1F534) || (c =? 0x1F7E1))) x = true)
  /\ count_issues (lit "🔵 note, ✅ done, 🔴 one, 🟡 two") = 2%nat.
Proof.
  unfold count_issues. split; [|split; [|split]].
  - rewrite filter_app, length_app. reflexivity.
  - apply filter_length_le.
  - rewrite <- filter_nil_forallb. split.
    + apply length_zero_iff_nil.
    + intros ->. reflexivity.
  - vm_compute. reflexivity.
Qed.

(** X10.  Different round numbers have different round files, for all
    integers a round number can be. *)
Theorem X10_round_file_injective (n m : Z) :
  round_file n = round_file m -> n = m.
Proof.
  unfold round_file. intros H.
  apply app_inv_head in H. apply app_inv_tail in H.
  apply format_02d_inj, H.
Qed.

Lemma X10_round_file_injective_witness :
  round_file 7 = lit "round-07.md" /\ 7%Z = 7%Z.
Proof.
  split; [vm_compute; reflexivity|].
  apply (X10_round_file_injective 7 7). reflexivity.
Defined.

End IssueCount.

Section LoopMore.

Variable lower : str -> str.
Variable e : env.
Variable a : args.

Lemma rounds_persisted_app t1 t2 :
  rounds_persisted (t1 ++ t2) = rounds_persisted t1 ++ rounds_persisted t2.
Proof. apply flat_map_app. Qed.

Lemma invocations_app t1 t2 :
  invocations (t1 ++ t2) = invocations t1 ++ invocations t2.
Proof. apply flat_map_app. Qed.

Lemma summaries_app t1 t2 :
  summaries (t1 ++ t2) = summaries t1 ++ summaries t2.
Proof. apply flat_map_app. Qed.

Lemma last_output_app t1 t2 d :
  last_output (t1 ++ t2) d = last_output t2 (last_output t1 d).
Proof. apply fold_left_app. Qed.

(** What one round leaves in the trace. *)
Lemma round_summary n prev last t r :
  round_runs e a n prev last t r ->
  summaries t = []
  /\ (length (invocations t) <= 2)%nat
  /\ ((rounds_persisted t = [] /\ forall p l, r <> Val (Continue p l))
      \/ exists out, rounds_persisted t = [(n, out)])
  /\ match r with
     | Val (Continue _ l) | Val (Break _ l) => l = last_output t last
     | SysExit code => code = 1%Z
     end.
Proof.
  intros H. inversion H as [p t0 out ts Hn Hc|p t0 o Hn Hc Ho|line Hn Hi
                            |line t0 r0 Hn Hi Hrev|t0 r0 Hn Hi Hrev]; subst.
  - repeat split; simpl; auto. right. exists out. reflexivity.
  - repeat split; simpl; auto. left. split; [reflexivity | discriminate].
  - repeat split; simpl; auto. left. split; [reflexivity | discriminate].
  - inversion Hrev; subst; unfold ending; simpl;
      repeat split; auto;
      try (left; split; [reflexivity | discriminate]);
      try (right; eexists; reflexivity);
      destruct (approved out); reflexivity.
  - inversion Hrev; subst; unfold ending; simpl;
      repeat split; auto;
      try (left; split; [reflexivity | discriminate]);
      try (right; eexists; reflexivity);
      destruct (approved out); reflexivity.
Qed.

Lemma loop_summary rp sc rounds : forall prev last w t w' r,
  loop lower e a rp sc rounds prev last w = (t, w', r) ->
  summaries t = []
  /\ (length (invocations t) <= 2 * length rounds)%nat
  /\ (exists k, map fst (rounds_persisted t) = firstn k rounds)
  /\ match r with
     | Val (_, l) => l = last_output t last
     | SysExit code => code = 1%Z
     end.
Proof.
  induction rounds as [|n rest IH]; intros prev last w t w' r; simpl.
  - intros H. injection H as <- <- <-. repeat split; auto.
    exists 0%nat. reflexivity.
  - unfold bind.
    destruct (round_body lower e a rp sc n prev last w) as [[t1 w1] r1] eqn:Hb.
    pose proof (round_summary _ _ _ _ _
                  (round_body_runs lower e a _ _ _ _ _ _ _ _ _ Hb))
      as (Hs1 & Hi1 & Hp1 & Hl1).
    destruct r1 as [[p l|p l]|code].
    + destruct (loop lower e a rp sc rest p l w1) as [[t2 w2] r2] eqn:Hl.
      intros H. injection H as <- <- <-.
      destruct (IH _ _ _ _ _ _ Hl) as (Hs2 & Hi2 & (k & Hp2) & Hl2).
      rewrite summaries_app, invocations_app, rounds_persisted_app,
        length_app, map_app, Hs1, Hs2.
      split; [reflexivity|]. split; [lia|]. split.
      * destruct Hp1 as [(_ & Hno)|(out & ->)];
          [destruct (Hno p l eq_refl)|].
        exists (S k). simpl. rewrite Hp2. reflexivity.
      * rewrite last_output_app, <- Hl1. exact Hl2.
    + simpl. intros H. injection H as <- <- <-. rewrite app_nil_r.
      split; [exact Hs1|]. split; [lia|]. split; [|exact Hl1].
      destruct Hp1 as [(-> & _)|(out & ->)];
        [exists 0%nat | exists 1%nat]; reflexivity.
    + intros H. injection H as <- <- <-.
      split; [exact Hs1|]. split; [lia|]. split; [|exact Hl1].
      destruct Hp1 as [(-> & _)|(out & ->)];
        [exists 0%nat | exists 1%nat]; reflexivity.
Qed.

Lemma firstn_seq_min (k len : nat) : forall start,
  firstn k (seq start len) = seq start (Nat.min k len).
Proof.
  revert len. induction k as [|k IH]; intros [|len] start; simpl;
    try reflexivity.
  rewrite IH. reflexivity.
Qed.


End LoopMore.



Section RunMore.

Variable lower : str -> str.
Variable e : env.
Variable a : args.

(** A run, with its files: the checks, the loop from the start world,
    and the summary unless the program was ended. *)
Lemma run_shape_full :
  ((section_file e = None \/ prompt_file e = None)
   /\ run lower e a = ([], {| fs := iteration_dir e; clock := 0 |}, SysExit 1))
  \/ exists rp sc t w r,
       section_file e = Some sc /\ prompt_file e = Some rp
       /\ loop lower e a rp sc (rounds_to_run a) 0 [] (start_world e a)
          = (t, w, r)
       /\ run lower e a =
          match r with
          | Val pl =>
              (t ++ [ESummary (approved (snd pl))
                       (summary_text a (snd pl) (fs w))],
               {| fs := write_text (lit "summary.md")
                          (summary_text a (snd pl) (fs w)) (fs w);
                  clock := clock w |},
               Val tt)
          | SysExit code => (t, w, SysExit code)
          end.
Proof.
  unfold run, main.
  destruct (section_file e) as [sc|]; [|left; split; [auto | reflexivity]].
  destruct (prompt_file e) as [rp|]; [|left; split; [auto | reflexivity]].
  right. exists rp, sc.
  assert (Hclean :
    (match single_round a with
     | None => clean_iteration_dir
     | Some n => if (n =? 1)%Z then clean_iteration_dir else ret tt
     end) {| fs := iteration_dir e; clock := 0 |}
    = ([], start_world e a, Val tt)).
  { unfold start_world, cleans_first.
    destruct (single_round a) as [n|]; [destruct (n =? 1)%Z|]; reflexivity. }
  destruct (loop lower e a rp sc (rounds_to_run a) 0 [] (start_world e a))
    as [[t w] r] eqn:Hl.
  exists t, w, r.
  split; [reflexivity|]. split; [reflexivity|]. split; [reflexivity|].
  unfold bind. rewrite Hclean, Hl.
  destruct r as [pl|code]; reflexivity.
Qed.




End RunMore.


Section RoundsOfARun.

Variable lower : str -> str.
Variable e : env.
Variable a : args.

(** Every event of the loop belongs to the run of one round, which
    starts where the rounds before it ended. *)
Lemma loop_round rp sc rounds : forall prev last w t w' r pre x post,
  loop lower e a rp sc rounds prev last w = (t, w', r) ->
  t = pre ++ x :: post ->
  exists n prev' last' w1 w1' t1 r1 before pre1 post1 rest,
    In n rounds
    /\ round_body lower e a rp sc n prev' last' w1 = (t1, w1', r1)
    /\ pre = before ++ pre1
    /\ t1 = pre1 ++ x :: post1
    /\ post = post1 ++ rest
    /\ match r1 with
       | SysExit code => rest = [] /\ r = SysExit code
       | Val (Break p l) => rest = [] /\ r = Val (p, l)
       | Val (Continue _ _) => True
       end.
Proof.
  induction rounds as [|n rest IH]; intros prev last w t w' r pre x post; simpl.
  - intros H Ht. injection H as H _ _. rewrite <- H in Ht.
    destruct (mid_nil _ _ _ (eq_sym Ht)).
  - unfold bind.
    destruct (round_body lower e a rp sc n prev last w) as [[t1 w1] r1] eqn:Hb.
    destruct r1 as [[p l|p l]|code].
    + destruct (loop lower e a rp sc rest p l w1) as [[t2 w2] r2] eqn:Hl.
      intros H Ht. injection H as H Hw Hres. subst w' r. rewrite <- H in Ht.
      destruct (mid_app _ _ _ _ _ Ht) as [(post1 & H1 & H2)|(pre2 & H1 & H2)].
      * exists n, prev, last, w, w1, t1, (Val (Continue p l)),
          [], pre, post1, t2.
        repeat split; simpl; auto.
      * destruct (IH _ _ _ _ _ _ _ _ _ Hl H2)
          as (n' & prev' & last' & v & v' & t1' & r1' & before & pre1 & post1
              & rest' & Hin & Hb' & Hpre & H').
        exists n', prev', last', v, v', t1', r1', (t1 ++ before), pre1, post1,
          rest'.
        split; [right; exact Hin|]. split; [exact Hb'|].
        split; [rewrite H1, Hpre, app_assoc; reflexivity | exact H'].
    + simpl. intros H Ht. injection H as H Hw Hres. subst w' r.
      rewrite <- H, app_nil_r in Ht.
      exists n, prev, last, w, w1, t1, (Val (Break p l)), [], pre, post, [].
      rewrite app_nil_r. repeat split; simpl; auto.
    + intros H Ht. injection H as H Hw Hres. subst w' r. rewrite <- H in Ht.
      exists n, prev, last, w, w1, t1, (SysExit code), [], pre, post, [].
      rewrite app_nil_r. repeat split; simpl; auto.
Qed.

Lemma run_round pre x post :
  trace lower e a = pre ++ x :: post ->
  (forall b text, x <> ESummary b text) ->
  exists rp sc n prev last w1 w1' t1 r1 before pre1 post1 rest,
    In n (rounds_to_run a)
    /\ round_body lower e a rp sc n prev last w1 = (t1, w1', r1)
    /\ pre = before ++ pre1
    /\ t1 = pre1 ++ x :: post1
    /\ post = post1 ++ rest
    /\ match r1 with
       | SysExit code => rest = [] /\ status lower e a = SysExit code
       | Val (Break p l) =>
           status lower e a = Val tt
           /\ exists dir,
                rest = [ESummary (approved l) (summary_text a l dir)]
       | Val (Continue _ _) => True
       end.
Proof.
  intros Ht Hx. unfold trace, status in *.
  destruct (run_shape_full lower e a)
    as [(_ & Hrun)|(rp & sc & t & w & r & _ & _ & Hl & Hrun)];
    rewrite Hrun in *; simpl in Ht.
  - destruct (mid_nil _ _ _ (eq_sym Ht)).
  - assert (Hloop : exists post_t,
              t = pre ++ x :: post_t
              /\ match r with
                 | SysExit _ => post = post_t
                 | Val pl => post = post_t ++
                     [ESummary (approved (snd pl))
                        (summary_text a (snd pl) (fs w))]
                 end).
    { destruct r as [pl|code]; simpl in Ht.
      - destruct (mid_app _ _ _ _ _ Ht) as [(post1 & H1 & H2)|(pre2 & H1 & H2)].
        + exists post1. auto.
        + symmetry in H2. mid_cases H2. subst x. destruct (Hx _ _ eq_refl).
      - exists post. auto. }
    destruct Hloop as (post_t & Hd & Hpost).
    destruct (loop_round _ _ _ _ _ _ _ _ _ _ _ _ Hl Hd)
      as (n & prev & last & w1 & w1' & t1 & r1 & before & pre1 & post1 & rest
          & Hin & Hb & Hpre & Ht1 & Hpt & Hend).
    exists rp, sc, n, prev, last, w1, w1', t1, r1, before, pre1, post1.
    destruct r1 as [[p l|p l]|code].
    + destruct r as [pl|code].
      * exists (rest ++ [ESummary (approved (snd pl))
                           (summary_text a (snd pl) (fs w))]).
        rewrite Hpost, Hpt, app_assoc. auto 10.
      * exists rest. rewrite Hpost, Hpt. auto 10.
    + destruct Hend as [-> ->].
      exists [ESummary (approved l) (summary_text a l (fs w))].
      rewrite Hpost, Hpt, app_nil_r. simpl. eauto 10.
    + destruct Hend as [-> ->]. exists [].
      rewrite Hpost, Hpt. simpl. auto 10.
Qed.

(** The calls of one round. *)
Lemma review_invoke n' prev t r pre n resume p o post :
  review_runs e n' prev t r ->
  t = pre ++ EInvoke n resume p o :: post ->
  n = n'
  /\ (resume = true -> pre = [])
  /\ (resume = false ->
      exists o', pre = [EInvoke n true p o']
                 /\ (o' = Output [] \/ o' = Timeout)).
Proof.
  intros H Ht; inversion H; subst;
    match goal with H : _ = _ ++ _ :: _ |- _ => symmetry in H; mid_cases H end;
    subst; try discriminate;
    match goal with
    | H : EInvoke _ _ _ _ = EInvoke _ _ _ _ |- _ => injection H as -> -> -> ->
    end;
    (split; [reflexivity|]); split; intros Hres; try discriminate Hres;
    try reflexivity; eexists; split; try reflexivity; assumption.
Qed.

Lemma round_invoke n' prev last t r pre n resume p o post :
  round_runs e a n' prev last t r ->
  t = pre ++ EInvoke n resume p o :: post ->
  if resume then n <> 1%Z
  else n = 1%Z
       \/ exists pre' o', pre = pre' ++ [EInvoke n true p o']
                          /\ (o' = Output [] \/ o' = Timeout).
Proof.
  intros H Ht; subst t; inversion H; subst; try find_mid; subst;
    try discriminate.
  - match goal with
    | Hev : EInvoke _ _ _ _ = EInvoke _ _ _ _ |- _ =>
        injection Hev as -> -> -> ->
    end. left; reflexivity.
  - match goal with
    | Hev : EInvoke _ _ _ _ = EInvoke _ _ _ _ |- _ =>
        injection Hev as -> -> -> ->
    end. left; reflexivity.
  - match goal with
    | Hrev : review_runs _ _ _ _ _ |- _ =>
        destruct (review_invoke _ _ _ _ _ _ _ _ _ _ Hrev eq_refl)
          as (-> & Ht & Hf)
    end.
    destruct resume; [assumption|].
    destruct (Hf eq_refl) as (o' & -> & Ho). right.
    exists [EInput line], o'. auto.
  - match goal with
    | Hrev : review_runs _ _ _ _ _ |- _ =>
        destruct (review_invoke _ _ _ _ _ _ _ _ _ _ Hrev eq_refl)
          as (-> & Ht & Hf)
    end.
    destruct resume; [assumption|].
    destruct (Hf eq_refl) as (o' & -> & Ho). right.
    exists [], o'. auto.
Qed.


End RoundsOfARun.


Section WaitAndFiles.

Variable lower : str -> str.
Variable e : env.
Variable a : args.


(** Files after a write. *)
Lemma read_write_other (p q text : str) (dir : files) :
  p <> q -> read_text q (write_text p text dir) = read_text q dir.
Proof.
  intros Hpq.
  assert (Hf : str_eqb p q = false).
  { destruct (str_eqb p q) eqn:H; [|reflexivity].
    apply str_eqb_eq in H. contradiction. }
  induction dir as [|[p0 t0] rest IH]; simpl.
  - rewrite Hf. reflexivity.
  - destruct (str_eqb p0 p) eqn:Hp0; simpl.
    + apply str_eqb_eq in Hp0. subst p0. rewrite Hf. reflexivity.
    + destruct (str_eqb p0 q); [reflexivity | exact IH].
Qed.

Lemma read_write_keeps (p q text : str) (dir : files) :
  read_text q dir <> None -> read_text q (write_text p text dir) <> None.
Proof.
  intros H. destruct (str_eqb p q) eqn:Hpq.
  - apply str_eqb_eq in Hpq. subst q. rewrite read_write_text. discriminate.
  - rewrite read_write_other; [exact H|].
    intros ->. rewrite str_eqb_refl in Hpq. discriminate.
Qed.

(** The files of a round: it writes its round file when it persists a
    round, and nothing else. *)
Lemma review_revision_files n prev w t w' r :
  review_revision e n prev w = (t, w', r) ->
  (fs w' = fs w /\ rounds_persisted t = [])
  \/ exists out text,
       fs w' = write_text (round_file n) text (fs w)
       /\ rounds_persisted t = [(n, out)].
Proof.
  unfold review_revision, bind, read_revised, run_codex, now_iso, persist.
  destruct (revised_file e (clock w)) as [rc|]; simpl;
    [|intros H; injection H as <- <- _; left; auto].
  destruct (codex_call e (S (clock w)) (resume_prompt rc) true)
    as [[|c out]| |]; simpl;
    try (destruct (codex_call e (S (S (clock w))) (resume_prompt rc) false)
           as [out'| |]; simpl);
    try (destruct (approved _); simpl);
    intros H; injection H as <- <- _; simpl;
    try (left; split; reflexivity);
    right; eexists; eexists; split; reflexivity.
Qed.

Lemma round_body_files rp sc n prev last w t w' r :
  round_body lower e a rp sc n prev last w = (t, w', r) ->
  (fs w' = fs w /\ rounds_persisted t = [])
  \/ exists out text,
       fs w' = write_text (round_file n) text (fs w)
       /\ rounds_persisted t = [(n, out)].
Proof.
  unfold round_body. destruct (Z.eqb_spec n 1) as [->|Hn].
  - unfold first_round, bind, run_codex, now_iso, persist.
    destruct (codex_call e (clock w) (full_prompt rp sc) false)
      as [out| |]; simpl; intros H; injection H as <- <- _; simpl;
      try (left; split; reflexivity);
      right; eexists; eexists; split; reflexivity.
  - unfold later_round. destruct interactive.
    + unfold bind at 1. unfold input.
      destruct (is_quit lower _).
      * simpl. intros H; injection H as <- <- _. left. auto.
      * destruct (review_revision e n prev (tick w)) as [[t2 w2] r2] eqn:H2.
        intros H; injection H as <- <- _.
        apply review_revision_files in H2. simpl. exact H2.
    + apply review_revision_files.
Qed.

Lemma loop_files rp sc rounds : forall prev last w t w' r,
  loop lower e a rp sc rounds prev last w = (t, w', r) ->
  (forall path, (forall k, In k rounds -> path <> round_file k) ->
     read_text path (fs w') = read_text path (fs w))
  /\ (forall path, read_text path (fs w) <> None ->
        read_text path (fs w') <> None)
  /\ (forall n out, In (n, out) (rounds_persisted t) ->
        read_text (round_file n) (fs w') <> None).
Proof.
  induction rounds as [|n rest IH]; intros prev last w t w' r; simpl.
  - intros H. injection H as <- <- _. repeat split; auto.
  - unfold bind.
    destruct (round_body lower e a rp sc n prev last w) as [[t1 w1] r1] eqn:Hb.
    pose proof (round_body_files _ _ _ _ _ _ _ _ _ Hb) as Hf.
    assert (H1 : (forall path, path <> round_file n ->
                    read_text path (fs w1) = read_text path (fs w))
                 /\ (forall path, read_text path (fs w) <> None ->
                       read_text path (fs w1) <> None)
                 /\ (forall m out, In (m, out) (rounds_persisted t1) ->
                       read_text (round_file m) (fs w1) <> None)).
    { destruct Hf as [(-> & ->)|(out & text & -> & ->)].
      - repeat split; auto.
      - split; [intros path Hp; apply read_write_other; auto|].
        split; [intros path; apply read_write_keeps|].
        intros m out' [Hm|[]]. injection Hm as <- _.
        rewrite read_write_text. discriminate. }
    destruct H1 as (Hframe1 & Hkeep1 & Hnew1).
    destruct r1 as [[p l|p l]|code].
    + destruct (loop lower e a rp sc rest p l w1) as [[t2 w2] r2] eqn:Hl.
      intros H. injection H as <- <- _.
      destruct (IH _ _ _ _ _ _ Hl) as (Hframe2 & Hkeep2 & Hnew2).
      split; [|split].
      * intros path Hp. rewrite Hframe2, Hframe1; auto.
      * auto.
      * intros m out. rewrite rounds_persisted_app. intros Hin.
        apply in_app_or in Hin. destruct Hin as [Hin|Hin]; eauto.
    + simpl. intros H. injection H as <- <- _. rewrite app_nil_r.
      split; [|split]; auto.
    + intros H. injection H as <- <- _. split; [|split]; auto.
Qed.

Lemma round_file_not_summary n : round_file n <> lit "summary.md".
Proof. unfold round_file. intros H. vm_compute in H. discriminate H. Qed.



End WaitAndFiles.




Section SummaryHistory.

Variable lower : str -> str.
Variable e : env.
Variable a : args.

Lemma read_text_in (p text : str) (dir : files) :
  read_text p dir = Some text -> In (p, text) dir.
Proof.
  induction dir as [|[p0 t0] rest IH]; simpl; [discriminate|].
  destruct (str_eqb p0 p) eqn:Hp.
  - apply str_eqb_eq in Hp. subst p0. intros H. injection H as ->.
    left; reflexivity.
  - intros H. right. apply IH, H.
Qed.

Lemma in_insert_sorted (x f : str * str) (l : files) :
  In x (insert_sorted f l) <-> x = f \/ In x l.
Proof.
  induction l as [|g rest IH]; simpl.
  - intuition.
  - destruct (str_leb (fst f) (fst g)); simpl; [intuition|].
    rewrite IH. intuition.
Qed.

Lemma in_round_files (f : str * str) (dir : files) :
  In f dir ->
  startswith (lit "round-") (fst f) && endswith (lit ".md") (fst f)
  && (9 <=? length (fst f))%nat = true ->
  In f (round_files dir).
Proof.
  intros Hin Hglob. unfold round_files.
  assert (Hf : In f (filter (fun f => startswith (lit "round-") (fst f)
                                      && endswith (lit ".md") (fst f)
                                      && (9 <=? length (fst f))%nat) dir))
    by (apply filter_In; auto).
  revert Hf. generalize (filter (fun f => startswith (lit "round-") (fst f)
                                          && endswith (lit ".md") (fst f)
                                          && (9 <=? length (fst f))%nat) dir).
  intros l. induction l as [|g rest IH]; simpl; [auto|].
  intros [->|H]; apply in_insert_sorted; auto.
Qed.

Lemma startswith_app (p x : str) : startswith p (p ++ x) = true.
Proof.
  induction p as [|c p IH]; simpl; [reflexivity|].
  rewrite N.eqb_refl. exact IH.
Qed.

Lemma round_file_matches_glob (n : Z) :
  startswith (lit "round-") (round_file n)
  && endswith (lit ".md") (round_file n)
  && (9 <=? length (round_file n))%nat = true.
Proof.
  unfold round_file.
  apply andb_true_iff; split; [apply andb_true_iff; split|].
  - apply startswith_app.
  - unfold endswith. rewrite !rev_app_distr, <- app_assoc.
    apply startswith_app.
  - apply Nat.leb_le. rewrite !length_app.
    change (length (lit "round-")) with 6%nat.
    change (length (lit ".md")) with 3%nat. lia.
Qed.

Lemma join_in (sep x : str) (l : list str) :
  In x l -> exists before after, join sep l = before ++ x ++ after.
Proof.
  induction l as [|y l IH]; [intros []|].
  intros [->|Hin].
  - destruct l as [|z l'].
    + exists [], []. simpl. rewrite app_nil_r. reflexivity.
    + exists [], (sep ++ join sep (z :: l')). reflexivity.
  - destruct (IH Hin) as (b & c & Hj). destruct l as [|z l']; [destruct Hin|].
    exists (y ++ sep ++ b), c.
    change (join sep (y :: z :: l')) with (y ++ sep ++ join sep (z :: l')).
    rewrite Hj, <- !app_assoc. reflexivity.
Qed.

Lemma summary_text_lists (last : str) (dir : files) (p text : str) :
  In (p, text) (round_files dir) ->
  exists before after,
    summary_text a last dir =
    before ++ (lit "- " ++ p ++ lit ": "
               ++ str_of_N (N.of_nat (count_issues text)) ++ lit " issues")
    ++ after.
Proof.
  intros Hin. unfold summary_text.
  match goal with
  | |- context [join [LF] ?lines] =>
      destruct (join_in [LF]
                  (lit "- " ++ p ++ lit ": "
                   ++ str_of_N (N.of_nat (count_issues text)) ++ lit " issues")
                  lines) as (b & c & ->)
  end.
  - apply in_or_app. right.
    apply (in_map (fun f => lit "- " ++ fst f ++ lit ": "
                            ++ str_of_N (N.of_nat (count_issues (snd f)))
                            ++ lit " issues") _ (p, text) Hin).
  - exists b, (c ++ [LF]). rewrite <- !app_assoc. reflexivity.
Qed.


End SummaryHistory.


(* ================================================================== *)
(** * The one-shot reviews: properties *)
(* ================================================================== *)

Section OneShotReviews.

Import OneShot.


Lemma append_reviews_grows (reviews : files) : forall summary,
  exists more, ReviewHolistic.append_reviews summary reviews = summary ++ more.
Proof.
  induction reviews as [|x l IH]; intros summary;
    cbn [ReviewHolistic.append_reviews].
  - exists []. rewrite app_nil_r. reflexivity.
  - destruct (IH (summary ++ snd x ++ lit "

---

")) as (more & ->).
    eexists. rewrite <- !app_assoc. reflexivity.
Qed.

Lemma append_reviews_in (f : str * str) (reviews : files) : forall summary,
  In f reviews ->
  exists before after,
    ReviewHolistic.append_reviews summary reviews = before ++ snd f ++ after.
Proof.
  induction reviews as [|g rest IH]; intros summary; [intros []|].
  intros [->|Hin]; cbn [ReviewHolistic.append_reviews].
  - destruct (append_reviews_grows rest (summary ++ snd f ++ lit "

---

")) as (more & ->).
    exists summary. eexists. rewrite <- !app_assoc. reflexivity.
  - apply IH. exact Hin.
Qed.

Lemma in_review_files (f : str * str) (dir : files) :
  In f dir -> endswith (lit "-review.md") (fst f) = true ->
  In f (ReviewHolistic.review_files dir).
Proof.
  intros Hin Hglob. unfold ReviewHolistic.review_files.
  assert (Hf : In f (filter (fun f => endswith (lit "-review.md") (fst f)) dir))
    by (apply filter_In; auto).
  revert Hf.
  generalize (filter (fun f => endswith (lit "-review.md") (fst f)) dir).
  intros l. induction l as [|g rest IH]; simpl; [auto|].
  intros [->|H]; apply in_insert_sorted; auto.
Qed.

Lemma section_feedback_name h ds argv name text :
  written (ReviewSection.main h ds argv) = Some (name, text) ->
  name = ReviewSection.feedback_name (ReviewSection.section_stem ds).
Proof.
  unfold ReviewSection.main.
  destruct argv as [|script [|path rest]]; try discriminate.
  destruct (ReviewSection.section_file ds); [|discriminate].
  destruct (ReviewSection.prompt_file ds _); [|discriminate].
  destruct (run_codex h _); cbn [written]; try discriminate;
    intros H; injection H as <- _; reflexivity.
Qed.

(** X21.  What [review_section] writes is read by [review_holistic]:
    the file it leaves, the review or the TIMEOUT notice alike, has a
    name the holistic review looks for, so that, once it is in the
    pass 1 directory given to the holistic review, its text is part of
    the prompt that review sends. *)
Theorem X21_section_feedback_reaches_holistic_prompt
    (h h' : host) (ds : ReviewSection.disk) (dh : ReviewHolistic.disk)
    (argv : list str) (script plan pass1 : str) (more : list str)
    (name text prompt : str) (dir : files) :
  written (ReviewSection.main h ds argv) = Some (name, text) ->
  ReviewHolistic.pass1_files dh = Some dir ->
  In (name, text) dir ->
  sent (ReviewHolistic.main h' dh (script :: plan :: pass1 :: more))
    = Some prompt ->
  In (name, text) (ReviewHolistic.review_files dir)
  /\ exists before after, prompt = before ++ text ++ after.
Proof.
  intros Hw Hdir Hin Hsent.
  assert (Hfiles : In (name, text) (ReviewHolistic.review_files dir)).
  { apply in_review_files; [exact Hin|].
    rewrite (section_feedback_name _ _ _ _ _ Hw). cbn [fst].
    unfold ReviewSection.feedback_name, endswith.
    rewrite rev_app_distr. apply startswith_app. }
  split; [exact Hfiles|].
  unfold ReviewHolistic.main in Hsent. rewrite Hdir in Hsent.
  destruct (ReviewHolistic.plan_file dh) as [plan_content|];
    [|discriminate Hsent].
  destruct (ReviewHolistic.holistic_prompt dh) as [hp|]; [|discriminate Hsent].
  assert (Hp : prompt = ReviewHolistic.full_prompt hp
                          (ReviewHolistic.pass1_summary (Some dir))
                          plan_content).
  { destruct (run_codex h' _); cbn [sent] in Hsent;
      injection Hsent as <-; reflexivity. }
  rewrite Hp. unfold ReviewHolistic.full_prompt, ReviewHolistic.pass1_summary.
  destruct (append_reviews_in (name, text) _ ReviewHolistic.pass1_header Hfiles)
    as (b & c & Hb).
  cbn [snd] in Hb. rewrite Hb.
  exists ((hp ++ [LF; LF]) ++ b). eexists.
  rewrite <- !app_assoc. reflexivity.
Qed.

End OneShotReviews.

Lemma X21_section_feedback_reaches_holistic_prompt_witness :
  OneShot.written (ReviewSection.main (answering_host (lit "🟡 One warning.
")) section_disk section_argv)
    = Some (lit "01-a-review.md",
            ReviewSection.feedback_text (lit "01-a") (lit "architecture")
              (lit "2026-01-01T00:00:00+00:00") (lit "🟡 One warning."))
  /\ exists prompt,
       OneShot.sent
         (ReviewHolistic.main (answering_host (lit "ok"))
            (holistic_disk
               [(lit "01-a-review.md",
                 ReviewSection.feedback_text (lit "01-a") (lit "architecture")
                   (lit "2026-01-01T00:00:00+00:00") (lit "🟡 One warning."));
                (lit "notes.txt", lit "not a review")])
            holistic_argv)
       = Some prompt
       /\ contains (lit "🟡 One warning.") prompt = true
       /\ contains (lit "not a review") prompt = false
       /\ exists before after,
            prompt = before
                     ++ ReviewSection.feedback_text (lit "01-a")
                          (lit "architecture")
                          (lit "2026-01-01T00:00:00+00:00")
                          (lit "🟡 One warning.")
                     ++ after.
Proof.
  assert (Hw : OneShot.written (ReviewSection.main (answering_host (lit "🟡 One warning.
")) section_disk section_argv)
    = Some (lit "01-a-review.md",
            ReviewSection.feedback_text (lit "01-a") (lit "architecture")
              (lit "2026-01-01T00:00:00+00:00") (lit "🟡 One warning.")))
    by (vm_compute; reflexivity).
  split; [exact Hw|].
  eexists. split; [reflexivity|].
  split; [vm_compute; reflexivity|]. split; [vm_compute; reflexivity|].
  apply (proj2 (X21_section_feedback_reaches_holistic_prompt
           (answering_host (lit "🟡 One warning.
")) (answering_host (lit "ok")) section_disk
           (holistic_disk
              [(lit "01-a-review.md",
                ReviewSection.feedback_text (lit "01-a") (lit "architecture")
                  (lit "2026-01-01T00:00:00+00:00") (lit "🟡 One warning."));
               (lit "notes.txt", lit "not a review")])
           section_argv
           (lit "review_holistic.py") (lit "plan.md")
           (lit ".codex-review/feedback/pass1") []
           _ _ _ _ Hw eq_refl ltac:(left; reflexivity) eq_refl)).
Defined.
